(** * kitchen_sync: the MessagePack unpacker ([src/message_pack/unpack.h])

    A shallow embedding of [class Unpacker] and of the [operator >>]
    overloads that decode numbers, strings and vectors from a file
    descriptor, together with the properties of the decoder. *)

From Stdlib Require Import ZArith.
From Stdlib.Strings Require Import Byte.
From stdpp Require Import strings list pretty.

Local Open Scope Z_scope.

(** ** Bytes and byte order *)

(** The value of a [uint8_t]. *)
Definition byte_val (b : byte) : Z := Z.of_N (Byte.to_N b).

(** The byte order of the machine the unpacker is compiled for. *)
Inductive endianness := LittleEndian | BigEndian.

(** Most significant byte first. *)
Definition be_value (bs : list byte) : Z :=
  foldl (λ acc b, acc * 256 + byte_val b) 0 bs.

(** Least significant byte first. *)
Definition le_value (bs : list byte) : Z :=
  foldr (λ b acc, byte_val b + 256 * acc) 0 bs.

(** The unsigned integer a host of the given byte order sees in an object
    whose bytes in memory, lowest address first, are [bs]. *)
Definition native_value (host : endianness) (bs : list byte) : Z :=
  match host with
  | BigEndian => be_value bs
  | LittleEndian => le_value bs
  end.

(** Reversal of the [n] low bytes of [x]. *)
Fixpoint bswap (n : nat) (x : Z) : Z :=
  match n with
  | O => 0
  | S k => (x mod 256) * 256 ^ Z.of_nat k + bswap k (x / 256)
  end.

(** [ntohs], [ntohl] (libc) and [ntohll] on a value of [n] bytes: network
    order is big-endian, so the bytes are swapped on a little-endian host
    and left alone on a big-endian one. The result is unsigned, as the
    return types [uint16_t], [uint32_t] and [uint64_t] are.

    Modelled from the spec: [ntohll] comes from [endian.h], which is not
    part of the sources at hand; the spec has it convert "from big-endian
    wire order to native order", like its two libc siblings. *)
Definition ntoh (host : endianness) (n : nat) (x : Z) : Z :=
  match host with
  | BigEndian => x mod 256 ^ Z.of_nat n
  | LittleEndian => bswap n x
  end.

Definition ntohs (host : endianness) : Z → Z := ntoh host 2.
Definition ntohl (host : endianness) : Z → Z := ntoh host 4.
Definition ntohll (host : endianness) : Z → Z := ntoh host 8.

(** Reinterpretation of an unsigned [bits]-bit pattern as two's complement
    (the cast [(int8_t)leader], or reading an [int8_t] object). *)
Definition to_signed (bits : Z) (x : Z) : Z :=
  if decide (x mod 2 ^ bits < 2 ^ (bits - 1))
  then x mod 2 ^ bits
  else x mod 2 ^ bits - 2 ^ bits.

(** ** Type codes

    Modelled from the spec: [type_codes.h] is not part of the sources at
    hand; the values are those of the dispatch table of the spec. *)
Definition MSGPACK_POSITIVE_FIXNUM_MIN : Z := 0x00.
Definition MSGPACK_POSITIVE_FIXNUM_MAX : Z := 0x7f.
Definition MSGPACK_FIXMAP_MIN : Z := 0x80.
Definition MSGPACK_FIXMAP_MAX : Z := 0x8f.
Definition MSGPACK_FIXARRAY_MIN : Z := 0x90.
Definition MSGPACK_FIXARRAY_MAX : Z := 0x9f.
Definition MSGPACK_FIXRAW_MIN : Z := 0xa0.
Definition MSGPACK_FIXRAW_MAX : Z := 0xbf.
Definition MSGPACK_NIL : Z := 0xc0.
Definition MSGPACK_FALSE : Z := 0xc2.
Definition MSGPACK_TRUE : Z := 0xc3.
Definition MSGPACK_FLOAT : Z := 0xca.
Definition MSGPACK_DOUBLE : Z := 0xcb.
Definition MSGPACK_UINT8 : Z := 0xcc.
Definition MSGPACK_UINT16 : Z := 0xcd.
Definition MSGPACK_UINT32 : Z := 0xce.
Definition MSGPACK_UINT64 : Z := 0xcf.
Definition MSGPACK_INT8 : Z := 0xd0.
Definition MSGPACK_INT16 : Z := 0xd1.
Definition MSGPACK_INT32 : Z := 0xd2.
Definition MSGPACK_INT64 : Z := 0xd3.
Definition MSGPACK_RAW16 : Z := 0xda.
Definition MSGPACK_RAW32 : Z := 0xdb.
Definition MSGPACK_ARRAY16 : Z := 0xdc.
Definition MSGPACK_ARRAY32 : Z := 0xdd.
Definition MSGPACK_MAP16 : Z := 0xde.
Definition MSGPACK_MAP32 : Z := 0xdf.
Definition MSGPACK_NEGATIVE_FIXNUM_MIN : Z := 0xe0.
Definition MSGPACK_NEGATIVE_FIXNUM_MAX : Z := 0xff.

(** ** The file descriptor

    What [::read(fd, buf, count)] does is decided outside the program. The
    state behind the descriptor is the bytes of the stream that were not
    delivered yet, and a script of what the next calls will do: fail with
    an [errno], or deliver at most so many bytes (a short read). Once the
    script is over every call delivers as many of the requested bytes as
    the stream still has, which is none at the end of the stream. [nreads]
    counts the calls issued. *)
Inductive read_event :=
  | EvFail (errno : Z)
  | EvData (avail : nat).

Record fd_state := FdState {
  pending : list byte;
  script : list read_event;
  nreads : nat
}.

(** The return of [::read]: [-1] with [errno] set, or the bytes stored at
    [buf], whose number is the value returned. *)
Inductive read_ret :=
  | RetError (errno : Z)
  | RetBytes (bs : list byte).

Definition sys_read (count : nat) (f : fd_state) : read_ret * fd_state :=
  match script f with
  | EvFail e :: s => (RetError e, FdState (pending f) s (S (nreads f)))
  | EvData avail :: s =>
      let n := (avail `min` count)%nat in
      (RetBytes (take n (pending f)), FdState (drop n (pending f)) s (S (nreads f)))
  | [] =>
      (RetBytes (take count (pending f)),
       FdState (drop count (pending f)) [] (S (nreads f)))
  end.

Definition EINTR : Z := 4.

(** ** The unpacker and its computations *)

Record Unpacker := MkUnpacker {
  fd : fd_state;
  have_next_byte : bool;
  next_byte : byte
}.

(** The constructor [Unpacker(int fd)]. *)
Definition Unpacker_new (f : fd_state) : Unpacker := MkUnpacker f false Byte.x00.

Record unpacker_error := UnpackerError { what : string }.

(** How the loop of [read_raw_bytes] ends: all bytes stored, an exception,
    or still running when the fuel is spent. *)
Inductive loop_result :=
  | LoopDone (buf : list byte) (f : fd_state)
  | LoopThrow (e : unpacker_error) (f : fd_state)
  | LoopSpin.

(** A member function returns a value, throws an [unpacker_error], or is
    still inside the read loop when the fuel is spent. *)
Inductive outcome (A : Type) :=
  | Ok (a : A) (u : Unpacker)
  | Throw (e : unpacker_error) (u : Unpacker)
  | Diverge.
Arguments Ok {A} a u.
Arguments Throw {A} e u.
Arguments Diverge {A}.

(** A computation on the unpacker; the first argument bounds the
    iterations of each run of the read loop. *)
Definition M (A : Type) : Type := nat → Unpacker → outcome A.

#[export] Instance M_ret : MRet M := λ A a _ u, Ok a u.
#[export] Instance M_bind : MBind M := λ A B k m fuel u,
  match m fuel u with
  | Ok a u' => k a fuel u'
  | Throw e u' => Throw e u'
  | Diverge => Diverge
  end.

Definition throw {A} (msg : string) : M A := λ _ u, Throw (UnpackerError msg) u.

(** Modelled from the spec: [to_string] comes from [to_string.h], which is
    not part of the sources at hand; a decode failure names "the offending
    tag's numeric value", 193 for the tag [0xC1]. *)
Definition to_string (n : Z) : string := pretty n.

(** ** Target types of the generic [operator >>]

    The template casts what it read to [T] with [(T)]. The integer types
    are given by signedness and width; [it_name] is [typeid(T).name()]. *)
Record int_type := IntType {
  it_signed : bool;
  it_bits : Z;
  it_name : string
}.

(** A value of the integer type [t]. *)
Record cint (t : int_type) := CInt { cint_val : Z }.
Arguments CInt {t} cint_val.
Arguments cint_val {t} _.

(** Conversion of an integral value to the integer type [t]. *)
Definition wrap (t : int_type) (z : Z) : Z :=
  if it_signed t then to_signed (it_bits t) z else z mod 2 ^ it_bits t.

(** [float] and [double] objects, given by their bit patterns. *)
Record float_t := Float { float_bits : Z }.
Record double_t := Double { double_bits : Z }.

(** The floating-point conversions of the host, which the decoder uses but
    does not define: float and double to an integer type, an integral
    value to float and to double, and between the two widths. *)
Record fp_ops := FpOps {
  f32_to_int : int_type → Z → Z;
  f64_to_int : int_type → Z → Z;
  int_to_f32 : Z → Z;
  int_to_f64 : Z → Z;
  f32_to_f64 : Z → Z;
  f64_to_f32 : Z → Z
}.

(** What the decoder takes from the machine and the C library it is built
    for: the byte order, [strerror], and the floating-point conversions. *)
Class Platform := {
  host : endianness;
  strerror : Z → string;
  fp : fp_ops
}.

(** What the casts [(T)] of the generic [operator >>] need of [T]. *)
Class Numeric (T : Type) := {
  type_name : string;
  cast_int : Z → T;
  cast_float : Z → T;
  cast_double : Z → T
}.
Arguments type_name T {_}.

(** A type that some overload of [operator >>] decodes; [declared] is the
    object that [T value;] declares in [next]. *)
Class Unpackable (T : Type) := {
  declared : T;
  shr : T → M T
}.

(** [std::string::resize(n)]. *)
Fixpoint string_resize (n : nat) (s : string) : string :=
  match n with
  | O => EmptyString
  | S k =>
      match s with
      | EmptyString => String Ascii.zero (string_resize k EmptyString)
      | String c s' => String c (string_resize k s')
      end
  end.

(** The string after [bs] was stored at its [data()]. *)
Fixpoint string_store (bs : list byte) (s : string) : string :=
  match bs, s with
  | b :: bs', String _ s' => String (Ascii.ascii_of_byte b) (string_store bs' s')
  | _, _ => s
  end.

Section Unpack.

Context `{Platform}.

(** The loop of [read_raw_bytes]: [buf] is what was stored so far, [bytes]
    what is still to be read. *)
Fixpoint read_loop (fuel : nat) (f : fd_state) (buf : list byte) (bytes : nat)
    : loop_result :=
  match bytes with
  | O => LoopDone buf f
  | S _ =>
      match fuel with
      | O => LoopSpin
      | S fuel' =>
          match sys_read bytes f with
          | (RetError errno, f') =>
              if decide (errno = EINTR) then read_loop fuel' f' buf bytes
              else LoopThrow (UnpackerError
                     ("Read from stream failed: " +:+ strerror errno)) f'
          | (RetBytes bs, f') =>
              read_loop fuel' f' (buf ++ bs) (bytes - length bs)
          end
      end
  end.

(** [read_raw_bytes(buf, bytes)]; the result is what [buf] holds on return. *)
Definition read_raw_bytes (bytes : nat) : M (list byte) := λ fuel u,
  let '(buf, bytes, have) :=
    if have_next_byte u && (0 <? bytes)%nat
    then ([next_byte u], (bytes - 1)%nat, false)
    else ([], bytes, have_next_byte u) in
  match read_loop fuel (fd u) buf bytes with
  | LoopDone buf' f' => Ok buf' (MkUnpacker f' have (next_byte u))
  | LoopThrow e f' => Throw e (MkUnpacker f' have (next_byte u))
  | LoopSpin => Diverge
  end.

(** [peek()]. *)
Definition peek : M byte := λ fuel u,
  if have_next_byte u then Ok (next_byte u) u
  else
    match read_raw_bytes 1 fuel u with
    | Ok buf u' =>
        let b := default (next_byte u) (head buf) in
        Ok b (MkUnpacker (fd u') true b)
    | Throw e u' => Throw e u'
    | Diverge => Diverge
    end.

(** [read_raw<T>()] for the unsigned types of [size] bytes, and for [float]
    and [double], which are given by the bit pattern of the object. *)
Definition read_raw_unsigned (size : nat) : M Z :=
  bs ← read_raw_bytes size; mret (native_value host bs).

(** [read_raw<T>()] for the signed types of [size] bytes. *)
Definition read_raw_signed (size : nat) : M Z :=
  x ← read_raw_unsigned size; mret (to_signed (8 * Z.of_nat size) x).

Definition cannot_convert {A} (leader : Z) (target : string) : M A :=
  throw ("Don't know how to convert MessagePack type "
         +:+ to_string leader +:+ " to " +:+ target).

(** [next_is_nil()]. *)
Definition next_is_nil : M bool :=
  b ← peek; mret (bool_decide (byte_val b = MSGPACK_NIL)).

(** [next_nil()]. *)
Definition next_nil : M unit :=
  leader ← read_raw_unsigned 1;
  if decide (leader ≠ MSGPACK_NIL) then cannot_convert leader "nil"
  else mret ().

(** [next_array_length()]. *)
Definition next_array_length : M nat :=
  leader ← read_raw_unsigned 1;
  if decide (MSGPACK_FIXARRAY_MIN ≤ leader ∧ leader ≤ MSGPACK_FIXARRAY_MAX)
  then mret (Z.to_nat (Z.land leader 15))
  else if decide (leader = MSGPACK_ARRAY16)
  then n ← read_raw_unsigned 2; mret (Z.to_nat (ntohs host n))
  else if decide (leader = MSGPACK_ARRAY32)
  then n ← read_raw_unsigned 4; mret (Z.to_nat (ntohl host n))
  else cannot_convert leader "array".

(** [next_map_length()]. *)
Definition next_map_length : M nat :=
  leader ← read_raw_unsigned 1;
  if decide (MSGPACK_FIXMAP_MIN ≤ leader ∧ leader ≤ MSGPACK_FIXMAP_MAX)
  then mret (Z.to_nat (Z.land leader 15))
  else if decide (leader = MSGPACK_MAP16)
  then n ← read_raw_unsigned 2; mret (Z.to_nat (ntohs host n))
  else if decide (leader = MSGPACK_MAP32)
  then n ← read_raw_unsigned 4; mret (Z.to_nat (ntohl host n))
  else cannot_convert leader "map".

(** The generic [operator >>(Unpacker &, T &)]. The old value of [obj] is
    overwritten. *)
Definition operator_shr `{Numeric T} (obj : T) : M T :=
  leader ← read_raw_unsigned 1;
  if decide (MSGPACK_POSITIVE_FIXNUM_MIN ≤ leader ∧ leader ≤ MSGPACK_POSITIVE_FIXNUM_MAX)
  then mret (cast_int leader)
  else if decide (MSGPACK_NEGATIVE_FIXNUM_MIN ≤ leader ∧ leader ≤ MSGPACK_NEGATIVE_FIXNUM_MAX)
  then mret (cast_int (to_signed 8 leader))
  else if decide (leader = MSGPACK_FALSE) then mret (cast_int 0)
  else if decide (leader = MSGPACK_TRUE) then mret (cast_int 1)
  else if decide (leader = MSGPACK_FLOAT)
  then x ← read_raw_unsigned 4; mret (cast_float x)
  else if decide (leader = MSGPACK_DOUBLE)
  then x ← read_raw_unsigned 8; mret (cast_double x)
  else if decide (leader = MSGPACK_UINT8)
  then x ← read_raw_unsigned 1; mret (cast_int x)
  else if decide (leader = MSGPACK_UINT16)
  then x ← read_raw_unsigned 2; mret (cast_int (ntohs host x))
  else if decide (leader = MSGPACK_UINT32)
  then x ← read_raw_unsigned 4; mret (cast_int (ntohl host x))
  else if decide (leader = MSGPACK_UINT64)
  then x ← read_raw_unsigned 8; mret (cast_int (ntohll host x))
  else if decide (leader = MSGPACK_INT8)
  then x ← read_raw_signed 1; mret (cast_int x)
  else if decide (leader = MSGPACK_INT16)
  then x ← read_raw_signed 2; mret (cast_int (ntohs host x))
  else if decide (leader = MSGPACK_INT32)
  then x ← read_raw_signed 4; mret (cast_int (ntohl host x))
  else if decide (leader = MSGPACK_INT64)
  then x ← read_raw_signed 8; mret (cast_int (ntohll host x))
  else cannot_convert leader ("type " +:+ type_name T).

(** The specialisation [operator >>(Unpacker &, std::string &)]. *)
Definition operator_shr_string (obj : string) : M string :=
  leader ← read_raw_unsigned 1;
  obj ← (if decide (MSGPACK_FIXRAW_MIN ≤ leader ∧ leader ≤ MSGPACK_FIXRAW_MAX)
         then mret (string_resize (Z.to_nat (Z.land leader 31)) obj)
         else if decide (leader = MSGPACK_RAW16)
         then n ← read_raw_unsigned 2;
              mret (string_resize (Z.to_nat (ntohs host n)) obj)
         else if decide (leader = MSGPACK_RAW32)
         then n ← read_raw_unsigned 4;
              mret (string_resize (Z.to_nat (ntohl host n)) obj)
         else cannot_convert leader "string");
  bs ← read_raw_bytes (String.length obj);
  mret (string_store bs obj).

(** [next<T>()]. *)
Definition next `{Unpackable T} : M T := shr declared.
Arguments next T {_}.

(** The loop [while (array_length--) obj.push_back(unpacker.next<T>())]. *)
Fixpoint vector_loop `{Unpackable T} (array_length : nat) (obj : list T)
    : M (list T) :=
  match array_length with
  | O => mret obj
  | S k => v ← next T; vector_loop k (obj ++ [v])
  end.

(** [operator >>(Unpacker &, std::vector<T> &)]: [clear] empties the
    vector, [reserve] changes its capacity only. *)
Definition operator_shr_vector `{Unpackable T} (obj : list T) : M (list T) :=
  array_length ← next_array_length;
  let obj : list T := [] in
  vector_loop array_length obj.

(** [operator >>(Unpacker &, std::map<K, V> &)] calls
    [obj.reserve(map_length)], a member that [std::map] does not have: the
    overload is ill-formed for every [K] and [V], no call of it compiles,
    and it has no behaviour to embed. *)

(** *** The instances of the overloads *)

#[export] Instance cint_numeric (t : int_type) : Numeric (cint t) := {
  type_name := it_name t;
  cast_int z := CInt (wrap t z);
  cast_float x := CInt (wrap t (f32_to_int fp t x));
  cast_double x := CInt (wrap t (f64_to_int fp t x))
}.

#[export] Instance float_numeric : Numeric float_t := {
  type_name := "f";
  cast_int z := Float (int_to_f32 fp z);
  cast_float x := Float x;
  cast_double x := Float (f64_to_f32 fp x)
}.

#[export] Instance bool_numeric : Numeric bool := {
  type_name := "b";
  cast_int z := bool_decide (z ≠ 0);
  cast_float x := bool_decide (x mod 2 ^ 31 ≠ 0);
  cast_double x := bool_decide (x mod 2 ^ 63 ≠ 0)
}.

#[export] Instance double_numeric : Numeric double_t := {
  type_name := "d";
  cast_int z := Double (int_to_f64 fp z);
  cast_float x := Double (f32_to_f64 fp x);
  cast_double x := Double x
}.

#[export] Instance numeric_unpackable `{Numeric T} : Unpackable T | 10 := {
  declared := cast_int 0;
  shr := operator_shr
}.

#[export] Instance string_unpackable : Unpackable string := {
  declared := EmptyString;
  shr := operator_shr_string
}.

#[export] Instance vector_unpackable `{Unpackable T} : Unpackable (list T) := {
  declared := [];
  shr := operator_shr_vector
}.

End Unpack.

Arguments next T {_}.

(** ** The stream as the caller sees it *)

(** The bytes the caller has not consumed yet: the lookahead byte, when
    there is one, and then what the descriptor still has to deliver. *)
Definition logical (u : Unpacker) : list byte :=
  (if have_next_byte u then [next_byte u] else []) ++ pending (fd u).

(** An event that does not break a read: an interruption, or a delivery
    of any size. *)
Definition transient (e : read_event) : Prop :=
  match e with
  | EvFail errno => errno = EINTR
  | EvData _ => True
  end.

(** The descriptor only has transient events ahead, and the fuel outlasts
    its script. *)
Definition calm (fuel : nat) (u : Unpacker) : Prop :=
  Forall transient (script (fd u)) ∧ (length (script (fd u)) < fuel)%nat.

(** [m] consumes exactly the bytes [bs] from the front of the stream and
    returns [a], whatever interruptions and short reads happen. *)
Definition decodes {A} (m : M A) (bs : list byte) (a : A) : Prop :=
  ∀ fuel u rest, calm fuel u → logical u = bs ++ rest →
    ∃ u', m fuel u = Ok a u' ∧ logical u' = rest ∧ calm fuel u'.

(** [m] consumes exactly the bytes [bs] and throws an error that says [msg]. *)
Definition rejects {A} (m : M A) (bs : list byte) (msg : string) : Prop :=
  ∀ fuel u rest, calm fuel u → logical u = bs ++ rest →
    ∃ u', m fuel u = Throw (UnpackerError msg) u' ∧ logical u' = rest
          ∧ calm fuel u'.

(** The message of the decode failure of [next_nil] on the tag [b]. *)
Definition not_nil_message (b : byte) : string :=
  "Don't know how to convert MessagePack type " +:+ to_string (byte_val b)
  +:+ " to nil".

(** The number of bytes the deliveries of a script offer at most. *)
Definition offered (sc : list read_event) : nat :=
  foldr (λ e acc, match e with EvData avail => (avail + acc)%nat | EvFail _ => acc end)
        0%nat sc.

(** What a read of [bytes] bytes still has to ask the descriptor for, once
    the lookahead byte is taken. *)
Definition outstanding (u : Unpacker) (bytes : nat) : nat :=
  (bytes - (if have_next_byte u then 1 else 0))%nat.

(** The message of a stream failure. *)
Definition stream_failure `{Platform} (errno : Z) : string :=
  "Read from stream failed: " +:+ strerror errno.


(** The float value that the bytes of a float32 payload stand for, most
    significant byte first, as the wire format has them. *)
Definition wire_float (payload : list byte) : float_t := Float (be_value payload).

(** A little-endian platform for the examples, which convert no floating
    point number. *)
Definition little_endian_host : Platform := {|
  host := LittleEndian;
  strerror errno := "errno " +:+ to_string errno;
  fp := FpOps (λ _ _, 0) (λ _ _, 0) (λ _, 0) (λ _, 0) (λ x, x) (λ x, x)
|}.

Definition uint32_t : int_type := IntType false 32 "j".
Definition int32_t : int_type := IntType true 32 "i".

(** An unpacker on a descriptor with the given stream and script. *)
Definition unpacker_on (stream : list byte) (sc : list read_event) : Unpacker :=
  Unpacker_new (FdState stream sc 0).

(** [n] single-value decodes of the element type, one after the other,
    the values listed in the order they were decoded. *)
Fixpoint sequential_decodes `{Unpackable T} (n : nat) : M (list T) :=
  match n with
  | O => mret []
  | S k => x ← next T; xs ← sequential_decodes k; mret (x :: xs)
  end.

(** An encoded element: its bytes and the value they decode to. *)
Definition encoded `{Unpackable T} (item : list byte * T) : Prop :=
  decodes (next T) item.1 item.2.

(** An unpacker whose descriptor is interrupted once and then delivers two
    single bytes before it delivers in full. *)
Definition interrupted (stream : list byte) : Unpacker :=
  unpacker_on stream [EvFail EINTR; EvData 1; EvData 1].


(** ** Further vocabulary *)

(** The message of a decode failure: the leader byte and what it was to be
    converted to. *)
Definition decode_failure (leader : Z) (target : string) : string :=
  "Don't know how to convert MessagePack type " +:+ to_string leader
  +:+ " to " +:+ target.

(** The leader bytes that the generic [operator >>] has a case for. *)
Definition numeric_tag (t : Z) : Prop :=
  t ≤ 0x7f ∨ 0xe0 ≤ t ∨ t = 0xc2 ∨ t = 0xc3 ∨ 0xca ≤ t ≤ 0xd3.

(** The leader bytes of arrays, of maps and of strings. *)
Definition array_tag (t : Z) : Prop := 0x90 ≤ t ≤ 0x9f ∨ t = 0xdc ∨ t = 0xdd.
Definition map_tag (t : Z) : Prop := 0x80 ≤ t ≤ 0x8f ∨ t = 0xde ∨ t = 0xdf.
Definition raw_tag (t : Z) : Prop := 0xa0 ≤ t ≤ 0xbf ∨ t = 0xda ∨ t = 0xdb.

(** The descriptor will interrupt and deliver, and fail in no other way. *)
Definition harmless (u : Unpacker) : Prop := Forall transient (script (fd u)).

(** [m] throws the stream failure of [errno]. *)
Definition fails_with `{Platform} {A} (m : M A) (fuel : nat) (u : Unpacker)
    (errno : Z) : Prop :=
  ∃ u', m fuel u = Throw (UnpackerError (stream_failure errno)) u'.

(** [m] is still reading when the fuel is spent, whatever the fuel. *)
Definition blocks {A} (m : M A) (u : Unpacker) : Prop :=
  ∀ fuel, m fuel u = Diverge.

Definition uint8_t : int_type := IntType false 8 "h".
Definition int8_t : int_type := IntType true 8 "a".
Definition uint16_t : int_type := IntType false 16 "t".
Definition int16_t : int_type := IntType true 16 "s".
Definition uint64_t : int_type := IntType false 64 "m".
Definition int64_t : int_type := IntType true 64 "l".

(** The tags of the unsigned and of the signed integers of one, two and
    four bytes, each with the size of its payload. *)
Definition uint_tags : list (byte * nat) := [(xcc, 1%nat); (xcd, 2%nat); (xce, 4%nat)].
Definition int_tags : list (byte * nat) := [(xd0, 1%nat); (xd1, 2%nat); (xd2, 4%nat)].

(** The tags that announce a payload of fixed size to the generic
    [operator >>]. *)
Definition sized_tags : list (byte * nat) :=
  [(xca, 4%nat); (xcb, 8%nat); (xcc, 1%nat); (xcd, 2%nat); (xce, 4%nat);
   (xcf, 8%nat); (xd0, 1%nat); (xd1, 2%nat); (xd2, 4%nat); (xd3, 8%nat)].
(** ** Properties *)

Lemma byte_val_range b : 0 ≤ byte_val b < 256.
Proof.
  unfold byte_val. pose proof (Byte.to_N_bounded b). lia.
Qed.

Lemma decodes_ret {A} (a : A) : decodes (mret a) [] a.
Proof. intros fuel u rest Hc Hl. exists u. by split. Qed.

Lemma decodes_bind {A B} (m : M A) (k : A → M B) bs1 bs2 a b :
  decodes m bs1 a → decodes (k a) bs2 b → decodes (m ≫= k) (bs1 ++ bs2) b.
Proof.
  intros Hm Hk fuel u rest Hc Hl. rewrite <- app_assoc in Hl.
  destruct (Hm fuel u _ Hc Hl) as (u1 & E1 & L1 & C1).
  destruct (Hk fuel u1 _ C1 L1) as (u2 & E2 & L2 & C2).
  exists u2. split; [|done].
  unfold mbind, M_bind. by rewrite E1.
Qed.

Lemma rejects_bind {A B} (m : M A) (k : A → M B) bs1 bs2 a msg :
  decodes m bs1 a → rejects (k a) bs2 msg → rejects (m ≫= k) (bs1 ++ bs2) msg.
Proof.
  intros Hm Hk fuel u rest Hc Hl. rewrite <- app_assoc in Hl.
  destruct (Hm fuel u _ Hc Hl) as (u1 & E1 & L1 & C1).
  destruct (Hk fuel u1 _ C1 L1) as (u2 & E2 & L2 & C2).
  exists u2. split; [|done].
  unfold mbind, M_bind. by rewrite E1.
Qed.

Lemma decodes_bind_ret {A B} (m : M A) (f : A → B) bs a :
  decodes m bs a → decodes (m ≫= λ x, mret (f x)) bs (f a).
Proof.
  intros Hm. pose proof (decodes_bind m (λ x, mret (f x)) bs [] a (f a) Hm
    (decodes_ret _)) as Hd.
  by rewrite app_nil_r in Hd.
Qed.

Lemma rejects_throw {A} msg : rejects (@throw A msg) [] msg.
Proof. intros fuel u rest Hc Hl. exists u. by split. Qed.

Section UnpackFacts.
Context `{Platform}.

Lemma read_loop_calm sc : ∀ fuel pend nr buf bytes got rest,
  Forall transient sc → (length sc < fuel)%nat →
  pend = got ++ rest → length got = bytes →
  ∃ sc' nr', read_loop fuel (FdState pend sc nr) buf bytes
             = LoopDone (buf ++ got) (FdState rest sc' nr')
    ∧ Forall transient sc' ∧ (length sc' ≤ length sc)%nat.
Proof.
  induction sc as [|e sc IH]; intros fuel pend nr buf bytes got rest Ht Hf -> Hlen.
  - destruct bytes as [|n].
    + destruct got; [|done]. exists [], nr. rewrite app_nil_r.
      by destruct fuel.
    + destruct fuel as [|fuel]; [simpl in Hf; lia|].
      cbn [read_loop]. unfold sys_read. cbn [script pending nreads].
      rewrite take_app_length' by done. rewrite drop_app_length' by done.
      rewrite Hlen, Nat.sub_diag. exists [], (S nr). by destruct fuel.
  - destruct bytes as [|n].
    + destruct got; [|done]. exists (e :: sc), nr. rewrite app_nil_r.
      by destruct fuel.
    + destruct fuel as [|fuel]; [simpl in Hf; lia|].
      apply Forall_cons in Ht as [He Ht]. simpl in Hf.
      cbn [read_loop]. unfold sys_read. cbn [script pending nreads].
      destruct e as [errno|avail].
      * simpl in He. rewrite decide_True by done.
        destruct (IH fuel (got ++ rest) (S nr) buf (S n) got rest)
          as (sc' & nr' & E & Ht' & Hl'); [done|lia|done|done|].
        exists sc', nr'. split; [done|]. split; [done|]. simpl. lia.
      * set (k := (avail `min` S n)%nat).
        assert (k ≤ length got)%nat by lia.
        rewrite take_app_le, drop_app_le by done.
        destruct (IH fuel (drop k got ++ rest) (S nr) (buf ++ take k got)
                    (S n - length (take k got))%nat (drop k got) rest)
          as (sc' & nr' & E & Ht' & Hl'); [done|lia|done| |].
        { rewrite length_drop, length_take. lia. }
        exists sc', nr'. rewrite E, <- app_assoc, take_drop.
        split; [done|]. split; [done|]. simpl. lia.
Qed.

Lemma decodes_read_raw_bytes bs : decodes (read_raw_bytes (length bs)) bs bs.
Proof.
  intros fuel [[pend sc nr] have nb] rest [Ht Hf] Hl.
  unfold logical in Hl. simpl in *. unfold read_raw_bytes. simpl.
  destruct have; simpl in *.
  - destruct bs as [|b bs]; simpl in *.
    + exists (MkUnpacker (FdState pend sc nr) true nb).
      split; [by destruct fuel|]. by split.
    + injection Hl as -> ->. rewrite Nat.sub_0_r.
      destruct (read_loop_calm sc fuel (bs ++ rest) nr [b] (length bs) bs rest)
        as (sc' & nr' & E & Ht' & Hl'); [done..|].
      rewrite E. eexists. split; [done|]. split; [done|].
      split; simpl; [done|lia].
  - destruct (read_loop_calm sc fuel pend nr [] (length bs) bs rest)
      as (sc' & nr' & E & Ht' & Hl'); [done..|].
    rewrite E. eexists. split; [done|]. split; [done|].
    split; simpl; [done|lia].
Qed.

Lemma decodes_read_raw_unsigned n bs :
  length bs = n → decodes (read_raw_unsigned n) bs (native_value host bs).
Proof.
  intros <-. unfold read_raw_unsigned.
  apply (decodes_bind_ret _ (native_value host)), decodes_read_raw_bytes.
Qed.

Lemma native_value_byte b : native_value host [b] = byte_val b.
Proof.
  unfold native_value, be_value, le_value.
  destruct host; cbn [foldl foldr]; lia.
Qed.

Lemma decodes_leader b : decodes (read_raw_unsigned 1) [b] (byte_val b).
Proof. rewrite <- native_value_byte. by apply decodes_read_raw_unsigned. Qed.

End UnpackFacts.

Create HintDb codes discriminated.
#[global] Hint Unfold
  MSGPACK_POSITIVE_FIXNUM_MIN MSGPACK_POSITIVE_FIXNUM_MAX
  MSGPACK_FIXMAP_MIN MSGPACK_FIXMAP_MAX MSGPACK_FIXARRAY_MIN
  MSGPACK_FIXARRAY_MAX MSGPACK_FIXRAW_MIN MSGPACK_FIXRAW_MAX MSGPACK_NIL
  MSGPACK_FALSE MSGPACK_TRUE MSGPACK_FLOAT MSGPACK_DOUBLE MSGPACK_UINT8
  MSGPACK_UINT16 MSGPACK_UINT32 MSGPACK_UINT64 MSGPACK_INT8 MSGPACK_INT16
  MSGPACK_INT32 MSGPACK_INT64 MSGPACK_RAW16 MSGPACK_RAW32 MSGPACK_ARRAY16
  MSGPACK_ARRAY32 MSGPACK_MAP16 MSGPACK_MAP32 MSGPACK_NEGATIVE_FIXNUM_MIN
  MSGPACK_NEGATIVE_FIXNUM_MAX : codes.

(** Settles the tests on the leader byte, one after the other. *)
Ltac dispatch :=
  repeat first
    [ rewrite decide_True by (autounfold with codes; lia)
    | rewrite decide_False by (autounfold with codes; lia) ].

(** Reads the leader byte [b] and goes on with the rest of the function. *)
Ltac read_leader b :=
  apply (decodes_bind _ _ [b] _ (byte_val b)); [apply decodes_leader|].

Lemma to_signed_id bits z :
  0 < bits → - 2 ^ (bits - 1) ≤ z < 2 ^ (bits - 1) → to_signed bits z = z.
Proof.
  intros Hb Hz. unfold to_signed.
  assert (2 ^ bits = 2 * 2 ^ (bits - 1)) as E.
  { rewrite <- Z.pow_succ_r by lia. f_equal. lia. }
  destruct (decide (0 ≤ z)).
  - rewrite Z.mod_small by lia. case_decide; lia.
  - assert (z mod 2 ^ bits = z + 2 ^ bits) as ->.
    { symmetry. apply (Z.mod_unique _ _ (-1)); lia. }
    case_decide; lia.
Qed.

Lemma to_signed_8_high z : 128 ≤ z < 256 → to_signed 8 z = z - 256.
Proof.
  intros Hz. unfold to_signed. rewrite Z.mod_small by lia.
  change (2 ^ (8 - 1)) with 128. change (2 ^ 8) with 256. case_decide; lia.
Qed.

Lemma pow2_ge_256 bits : 8 ≤ bits → 256 ≤ 2 ^ bits ∧ 128 ≤ 2 ^ (bits - 1).
Proof.
  intros Hb. split.
  - change 256 with (2 ^ 8). apply Z.pow_le_mono_r; lia.
  - change 128 with (2 ^ 7). apply Z.pow_le_mono_r; lia.
Qed.

Lemma wrap_unsigned_small t z :
  it_signed t = false → 8 ≤ it_bits t → 0 ≤ z < 256 → wrap t z = z.
Proof.
  intros Hs Hb Hz. unfold wrap. rewrite Hs.
  pose proof (pow2_ge_256 _ Hb). apply Z.mod_small. lia.
Qed.

Lemma wrap_signed_small t z :
  it_signed t = true → 8 ≤ it_bits t → -128 ≤ z < 128 → wrap t z = z.
Proof.
  intros Hs Hb Hz. unfold wrap. rewrite Hs.
  pose proof (pow2_ge_256 _ Hb). apply to_signed_id; lia.
Qed.

Section ByteSource.
Context `{Platform}.

Lemma sys_read_pending count f r f' :
  sys_read count f = (r, f') →
  nreads f' = S (nreads f)
  ∧ match r with
    | RetError _ => pending f' = pending f
    | RetBytes bs => pending f = bs ++ pending f' ∧ (length bs ≤ count)%nat
    end.
Proof.
  unfold sys_read. destruct (script f) as [|[errno|avail] s]; intros [= <- <-];
    cbn [pending nreads]; (split; [done|]); try done;
    rewrite take_drop, length_take; split; (done || lia).
Qed.

(** What a completed loop stored is what left the stream, in order. *)
Lemma read_loop_done fuel : ∀ f buf bytes buf' f',
  read_loop fuel f buf bytes = LoopDone buf' f' →
  ∃ got, buf' = buf ++ got ∧ length got = bytes
         ∧ pending f = got ++ pending f'.
Proof.
  induction fuel as [|fuel IH]; intros f buf bytes buf' f' E.
  - destruct bytes; [|done]. injection E as <- <-. exists [].
    by rewrite app_nil_r.
  - destruct bytes as [|n].
    { injection E as <- <-. exists []. by rewrite app_nil_r. }
    cbn [read_loop] in E.
    destruct (sys_read (S n) f) as [r f1] eqn:Er.
    apply sys_read_pending in Er as [_ Er]. destruct r as [errno|bs].
    + case_decide; [|done].
      apply IH in E as (got & -> & Hl & Hp). exists got. by rewrite <- Er.
    + destruct Er as [Ep Hle].
      apply IH in E as (got & -> & Hl & Hp). exists (bs ++ got).
      rewrite length_app, Ep, Hp, !app_assoc. split; [done|]. split; [lia|done].
Qed.

(** [read_raw_bytes] returns the next [bytes] bytes of the stream and
    leaves the lookahead slot empty, unless nothing was asked for. *)
Lemma read_raw_bytes_ok bytes fuel u bs u' :
  read_raw_bytes bytes fuel u = Ok bs u' →
  length bs = bytes ∧ logical u = bs ++ logical u'
  ∧ have_next_byte u' = (have_next_byte u && bool_decide (bytes = 0%nat))
  ∧ next_byte u' = next_byte u.
Proof.
  unfold read_raw_bytes, logical. destruct u as [f have nb]. cbn.
  destruct have; cbn.
  - destruct bytes as [|n]; cbn.
    + destruct fuel; cbn; intros [= <- <-]; by cbn.
    + rewrite Nat.sub_0_r.
      destruct (read_loop fuel f [nb] n) as [buf' f'| |] eqn:E; [|done..].
      apply read_loop_done in E as (got & -> & Hl & Hp).
      intros [= <- <-]. cbn. rewrite Hp, Hl. done.
  - destruct (read_loop fuel f [] bytes) as [buf' f'| |] eqn:E; [|done..].
    apply read_loop_done in E as (got & -> & Hl & Hp).
    intros [= <- <-]. cbn. by rewrite Hp, Hl.
Qed.

(** [peek] returns the first unread byte and leaves the stream, as the
    caller sees it, where it was. *)
Lemma peek_ok fuel u b u' :
  peek fuel u = Ok b u' →
  have_next_byte u' = true ∧ next_byte u' = b
  ∧ logical u' = logical u ∧ head (logical u) = Some b.
Proof.
  unfold peek. destruct (have_next_byte u) eqn:Hh.
  - intros [= <- <-]. unfold logical. by rewrite Hh.
  - destruct (read_raw_bytes 1 fuel u) as [bs u1| |] eqn:E; [|done..].
    apply read_raw_bytes_ok in E as (Hl & Hs & Hh1 & _).
    rewrite Hh in Hh1. cbn in Hh1.
    destruct bs as [|b0 [|]]; [done| |done].
    cbn. intros [= ? ?]; subst. cbn. rewrite Hs. unfold logical.
    by rewrite Hh1.
Qed.

Lemma peek_calm fuel u b rest :
  calm fuel u → logical u = b :: rest →
  ∃ u', peek fuel u = Ok b u' ∧ logical u' = b :: rest ∧ calm fuel u'.
Proof.
  intros Hc Hl. unfold peek. destruct (have_next_byte u) eqn:Hh.
  - exists u. split; [|done]. unfold logical in Hl. rewrite Hh in Hl.
    cbn in Hl. by injection Hl as -> _.
  - destruct (decodes_read_raw_bytes [b] fuel u rest Hc Hl)
      as (u1 & E & Hl1 & Hc1).
    cbn [length] in E. rewrite E. cbn. eexists. split; [done|].
    apply read_raw_bytes_ok in E as (_ & _ & Hh1 & _).
    rewrite Hh in Hh1. unfold logical in Hl1 |- *. rewrite Hh1 in Hl1.
    cbn in *. by rewrite Hl1.
Qed.

End ByteSource.

Section Claims.
Context `{Platform}.

(** C2. A tag byte [t] from 0x00 to 0x7F decoded as an unsigned integer
    (of 8 bits or more) gives exactly [t], and a tag byte from 0xE0 to 0xFF
    decoded as a signed integer gives [t] read as a two's-complement 8-bit
    value, [t - 256]; one byte is consumed. *)
Theorem fixnum_decode (ty : int_type) (t : byte) :
  8 ≤ it_bits ty →
  (it_signed ty = false → 0x00 ≤ byte_val t ≤ 0x7f →
     decodes (next (cint ty)) [t] (CInt (byte_val t)))
  ∧ (it_signed ty = true → 0xe0 ≤ byte_val t ≤ 0xff →
     to_signed 8 (byte_val t) = byte_val t - 256
     ∧ decodes (next (cint ty)) [t] (CInt (byte_val t - 256))).
Proof.
  intros Hb. split.
  - intros Hs Ht. unfold next. cbn [shr numeric_unpackable]. unfold operator_shr.
    read_leader t. dispatch. cbn [cast_int cint_numeric].
    rewrite wrap_unsigned_small by (done || lia). apply decodes_ret.
  - intros Hs Ht. split; [apply to_signed_8_high; lia|].
    unfold next. cbn [shr numeric_unpackable]. unfold operator_shr.
    read_leader t. dispatch. cbn [cast_int cint_numeric].
    rewrite to_signed_8_high by lia.
    rewrite wrap_signed_small by (done || lia). apply decodes_ret.
Qed.

(** C3. The tag 0x7F decoded as a number gives 127; the tag 0x80 decoded
    as a number is a decode failure that names the tag, 128, and the same
    tag given to [next_map_length] is a map of length 0. *)
Theorem fixnum_fixmap_boundary :
  (∀ `{Numeric T}, decodes (next T) [x7f] (cast_int 127))
  ∧ (∀ ty, 8 ≤ it_bits ty → decodes (next (cint ty)) [x7f] (CInt 127))
  ∧ (∀ `{Numeric T},
       rejects (next T) [x80]
         ("Don't know how to convert MessagePack type 128 to type "
          +:+ type_name T))
  ∧ decodes next_map_length [x80] 0%nat.
Proof.
  split; [|split; [|split]].
  - intros T HT. unfold next. cbn [shr numeric_unpackable]. unfold operator_shr.
    read_leader x7f. change (byte_val x7f) with 127. dispatch. apply decodes_ret.
  - intros ty Hb. unfold next. cbn [shr numeric_unpackable]. unfold operator_shr.
    read_leader x7f. change (byte_val x7f) with 127. dispatch.
    cbn [cast_int cint_numeric].
    assert (wrap ty 127 = 127) as ->; [|apply decodes_ret].
    destruct (it_signed ty) eqn:Hs;
      [apply wrap_signed_small|apply wrap_unsigned_small]; (done || lia).
  - intros T HT. unfold next. cbn [shr numeric_unpackable]. unfold operator_shr.
    apply (rejects_bind _ _ [x80] [] (byte_val x80)); [apply decodes_leader|].
    change (byte_val x80) with 128. dispatch. apply rejects_throw.
  - unfold next_map_length. read_leader x80. change (byte_val x80) with 128.
    dispatch. apply decodes_ret.
Qed.

(** C4. When the next unread byte is the nil tag 0xC0, [next_is_nil]
    returns true and leaves the stream where it was, and [next_nil] after
    it succeeds and consumes exactly that byte; on any first byte [b],
    [next_nil] consumes it and throws the decode failure that names [b]
    when [b] is not 0xC0, and succeeds when it is. *)
Theorem nil_peek_and_consume fuel u (b : byte) rest :
  calm fuel u → logical u = b :: rest →
  (byte_val b = 0xc0 →
     ∃ u1 u2, next_is_nil fuel u = Ok true u1 ∧ logical u1 = logical u
              ∧ next_nil fuel u1 = Ok () u2 ∧ logical u2 = rest)
  ∧ (byte_val b ≠ 0xc0 ↔
     ∃ u', next_nil fuel u = Throw (UnpackerError (not_nil_message b)) u'
           ∧ logical u' = rest)
  ∧ (byte_val b = 0xc0 ↔ ∃ u', next_nil fuel u = Ok () u' ∧ logical u' = rest).
Proof.
  intros Hc Hl.
  assert (byte_val b = 0xc0 → decodes next_nil [b] ()) as Hok.
  { intros Hb. unfold next_nil. read_leader b. rewrite Hb. dispatch.
    apply decodes_ret. }
  assert (byte_val b ≠ 0xc0 → rejects next_nil [b] (not_nil_message b)) as Hko.
  { intros Hb. unfold next_nil.
    apply (rejects_bind _ _ [b] [] (byte_val b)); [apply decodes_leader|].
    dispatch. apply rejects_throw. }
  split; [|split].
  - intros Hb. destruct (peek_calm fuel u b rest Hc Hl) as (u1 & E1 & Hl1 & Hc1).
    destruct (Hok Hb fuel u1 rest Hc1 Hl1) as (u2 & E2 & Hl2 & _).
    exists u1, u2. unfold next_is_nil, mbind, M_bind. rewrite E1. cbn.
    rewrite bool_decide_eq_true_2 by done. rewrite Hl1, Hl. done.
  - split.
    + intros Hb. destruct (Hko Hb fuel u rest Hc Hl) as (u' & E & Hl' & _).
      by exists u'.
    + intros (u' & E & _) Hb.
      destruct (Hok Hb fuel u rest Hc Hl) as (u2 & E2 & _). congruence.
  - split.
    + intros Hb. destruct (Hok Hb fuel u rest Hc Hl) as (u' & E & Hl' & _).
      by exists u'.
    + intros (u' & E & _). destruct (decide (byte_val b = 0xc0)); [done|].
      destruct (Hko n fuel u rest Hc Hl) as (u2 & E2 & _). congruence.
Qed.

End Claims.

Section ByteSourceClaims.
Context `{Platform}.

Lemma read_loop_eof fuel : ∀ sc nr buf n,
  Forall transient sc → read_loop fuel (FdState [] sc nr) buf (S n) = LoopSpin.
Proof.
  induction fuel as [|fuel IH]; intros sc nr buf n Ht; [done|].
  cbn [read_loop]. unfold sys_read. cbn [script pending nreads].
  destruct sc as [|[errno|avail] sc].
  - rewrite take_nil, drop_nil. cbn [length]. rewrite app_nil_r, Nat.sub_0_r.
    by apply IH.
  - apply Forall_cons in Ht as [He Ht]. cbn in He.
    rewrite decide_True by done. by apply IH.
  - apply Forall_cons in Ht as [_ Ht].
    rewrite take_nil, drop_nil. cbn [length]. rewrite app_nil_r, Nat.sub_0_r.
    by apply IH.
Qed.

Lemma read_loop_fails pre : ∀ fuel pend nr buf bytes errno sc,
  Forall transient pre → (offered pre < bytes)%nat → errno ≠ EINTR →
  (length pre < fuel)%nat →
  ∃ f', read_loop fuel (FdState pend (pre ++ EvFail errno :: sc) nr) buf bytes
        = LoopThrow (UnpackerError (stream_failure errno)) f'.
Proof.
  induction pre as [|e pre IH]; intros fuel pend nr buf bytes errno sc Ht Ho He Hf;
    (destruct bytes as [|n]; [cbn in Ho; lia|]);
    (destruct fuel as [|fuel]; [cbn in Hf; lia|]);
    cbn [read_loop app]; unfold sys_read; cbn [script pending nreads].
  - rewrite decide_False by done. by eexists.
  - apply Forall_cons in Ht as [Hte Ht]. cbn in Hf. destruct e as [e|avail].
    + cbn in Hte. rewrite decide_True by done. apply IH; (done || lia).
    + change (offered (EvData avail :: pre)) with (avail + offered pre)%nat in Ho.
      apply IH; [done| |done|lia].
      rewrite length_take. lia.
Qed.

(** C6. A read whose descriptor interrupts it with EINTR, or delivers the
    bytes in pieces, any number of times, returns exactly the bytes asked
    for, in stream order, and leaves the stream right after them; an
    interrupted [::read] changes neither the buffer nor the count nor the
    stream. A [::read] that fails with another [errno] while bytes are
    still missing ends the read with the exception whose message carries
    [strerror(errno)]. *)
Theorem read_retries_eintr_and_fails_otherwise :
  (∀ fuel u bs rest, calm fuel u → logical u = bs ++ rest →
     ∃ u', read_raw_bytes (length bs) fuel u = Ok bs u' ∧ logical u' = rest
           ∧ calm fuel u')
  ∧ (∀ fuel pend sc nr buf n,
       read_loop (S fuel) (FdState pend (EvFail EINTR :: sc) nr) buf (S n)
       = read_loop fuel (FdState pend sc (S nr)) buf (S n))
  ∧ (∀ fuel u bytes pre errno sc,
       script (fd u) = pre ++ EvFail errno :: sc → Forall transient pre →
       (offered pre < outstanding u bytes)%nat → errno ≠ EINTR →
       (length pre < fuel)%nat →
       ∃ u', read_raw_bytes bytes fuel u
             = Throw (UnpackerError (stream_failure errno)) u').
Proof.
  split; [|split].
  - intros fuel u bs rest. apply decodes_read_raw_bytes.
  - intros. cbn [read_loop]. unfold sys_read. cbn [script pending nreads].
    by rewrite decide_True.
  - intros fuel [[pend s nr] have nb] bytes pre errno sc Hs Ht Ho He Hf.
    cbn in Hs. subst s. unfold outstanding in Ho. cbn in Ho.
    unfold read_raw_bytes. cbn [have_next_byte next_byte fd].
    destruct have; cbn [andb].
    + destruct bytes as [|n]; [lia|]. cbn [Nat.ltb Nat.leb].
      destruct (read_loop_fails pre fuel pend nr [nb] (S n - 1) errno sc)
        as (f' & ->); [done|lia|done..|]. by eexists.
    + destruct (read_loop_fails pre fuel pend nr [] bytes errno sc)
        as (f' & ->); [done|lia|done..|]. by eexists.
Qed.

(** C10. With bytes still outstanding at the end of the stream, where
    every [::read] returns zero bytes, [read_raw_bytes] neither returns nor
    throws, whatever the fuel: an iteration whose [::read] returned zero
    bytes asks again for the same count with the same buffer. It returns
    only with all the bytes asked for, taken from the stream. *)
Theorem read_spins_at_end_of_stream :
  (∀ fuel u bytes,
     pending (fd u) = [] → Forall transient (script (fd u)) →
     (0 < outstanding u bytes)%nat →
     read_raw_bytes bytes fuel u = Diverge)
  ∧ (∀ fuel f f' buf n,
       sys_read (S n) f = (RetBytes [], f') →
       read_loop (S fuel) f buf (S n) = read_loop fuel f' buf (S n)
       ∧ pending f' = pending f)
  ∧ (∀ fuel u bytes bs u',
       read_raw_bytes bytes fuel u = Ok bs u' →
       length bs = bytes ∧ logical u = bs ++ logical u').
Proof.
  split; [|split].
  - intros fuel [[pend sc nr] have nb] bytes Hp Ht Ho. cbn in Hp, Ht. subst pend.
    unfold outstanding in Ho. cbn in Ho.
    unfold read_raw_bytes. cbn [have_next_byte next_byte fd].
    destruct have; cbn [andb].
    + destruct bytes as [|[|n]]; [lia..|]. cbn [Nat.ltb Nat.leb Nat.sub].
      by rewrite read_loop_eof.
    + destruct bytes as [|n]; [lia|]. by rewrite read_loop_eof.
  - intros fuel f f' buf n E. cbn [read_loop]. rewrite E. cbn [length].
    rewrite app_nil_r, Nat.sub_0_r. split; [done|].
    apply sys_read_pending in E as [_ [E _]]. done.
  - intros fuel u bytes bs u' E.
    apply read_raw_bytes_ok in E as (? & ? & _). done.
Qed.



(** C1, on the code. On a little-endian host the four payload bytes of a
    float32 are taken as the object in the order of the wire: the payload
    3F 80 00 00, which stands for 1.0 (bits 0x3F800000), comes out as the
    float of bits 0x0000803F. The same holds for the eight bytes of a
    float64. *)
Theorem float_payload_keeps_wire_order :
  host = LittleEndian →
  (∀ b0 b1 b2 b3,
     decodes (next float_t) [xca; b0; b1; b2; b3]
       (Float (le_value [b0; b1; b2; b3])))
  ∧ (∀ b0 b1 b2 b3 b4 b5 b6 b7,
     decodes (next double_t) [xcb; b0; b1; b2; b3; b4; b5; b6; b7]
       (Double (le_value [b0; b1; b2; b3; b4; b5; b6; b7])))
  ∧ decodes (next float_t) [xca; x3f; x80; x00; x00] (Float 0x0000803f)
  ∧ wire_float [x3f; x80; x00; x00] = Float 0x3f800000.
Proof.
  intros Hh.
  assert (∀ bs, native_value host bs = le_value bs) as Hn.
  { intros bs. unfold native_value. by rewrite Hh. }
  assert (∀ b0 b1 b2 b3,
     decodes (next float_t) [xca; b0; b1; b2; b3]
       (Float (le_value [b0; b1; b2; b3]))) as Hf.
  { intros. unfold next. cbn [shr numeric_unpackable]. unfold operator_shr.
    read_leader xca. change (byte_val xca) with 0xca. dispatch.
    rewrite <- Hn. apply (decodes_bind_ret _ Float).
    by apply decodes_read_raw_unsigned. }
  split; [done|]. split; [|split; [apply Hf|done]].
  intros. unfold next. cbn [shr numeric_unpackable]. unfold operator_shr.
  read_leader xcb. change (byte_val xcb) with 0xcb. dispatch.
  rewrite <- Hn. apply (decodes_bind_ret _ Double).
  by apply decodes_read_raw_unsigned.
Qed.

End ByteSourceClaims.

(** *** Byte order *)

Lemma be_value_app bs b : be_value (bs ++ [b]) = be_value bs * 256 + byte_val b.
Proof. unfold be_value. by rewrite foldl_app. Qed.

Lemma be_value_range bs : 0 ≤ be_value bs < 256 ^ Z.of_nat (length bs).
Proof.
  induction bs as [|b bs IH] using rev_ind; [done|].
  rewrite be_value_app, length_app, Nat2Z.inj_add, Z.pow_add_r by lia.
  cbn [length]. change (256 ^ Z.of_nat 1) with 256.
  pose proof (byte_val_range b). nia.
Qed.

Lemma be_value_cons b bs :
  be_value (b :: bs) = byte_val b * 256 ^ Z.of_nat (length bs) + be_value bs.
Proof.
  induction bs as [|c bs IH] using rev_ind.
  - unfold be_value. cbn. lia.
  - rewrite app_comm_cons, !be_value_app, IH, length_app, Nat2Z.inj_add,
      Z.pow_add_r by lia.
    cbn [length]. change (256 ^ Z.of_nat 1) with 256. lia.
Qed.

Lemma bswap_le_value bs : bswap (length bs) (le_value bs) = be_value bs.
Proof.
  induction bs as [|b bs IH]; [done|].
  rewrite be_value_cons. cbn [length bswap]. unfold le_value in *. cbn [foldr].
  pose proof (byte_val_range b).
  set (x := foldr _ 0 bs) in *.
  assert ((byte_val b + 256 * x) `mod` 256 = byte_val b) as ->.
  { symmetry. apply (Z.mod_unique _ _ x); lia. }
  assert ((byte_val b + 256 * x) `div` 256 = x) as ->.
  { symmetry. apply (Z.div_unique _ _ _ (byte_val b)); lia. }
  by rewrite IH.
Qed.

(** [ntohs], [ntohl] and [ntohll] of an object read raw give the value the
    bytes have most significant first, on either host. *)
Lemma ntoh_native_value h n bs :
  length bs = n → ntoh h n (native_value h bs) = be_value bs.
Proof.
  intros <-. destruct h; cbn [ntoh native_value].
  - apply bswap_le_value.
  - apply Z.mod_small, be_value_range.
Qed.

(** *** Strings *)

Lemma string_resize_length n s : String.length (string_resize n s) = n.
Proof.
  revert s. induction n as [|n IH]; intros s; [done|].
  destruct s; cbn; by rewrite IH.
Qed.

Lemma string_store_resize bs s :
  string_store bs (string_resize (length bs) s) = String.string_of_list_byte bs.
Proof.
  revert s. induction bs as [|b bs IH]; intros s; [done|].
  destruct s; cbn [length string_resize string_store]; rewrite IH; done.
Qed.

Section CodecClaims.
Context `{Platform}.

Lemma decodes_positive_fixnum ty (t : byte) :
  8 ≤ it_bits ty → byte_val t ≤ 0x7f →
  decodes (next (cint ty)) [t] (CInt (byte_val t)).
Proof.
  intros Hb Ht. pose proof (byte_val_range t).
  unfold next. cbn [shr numeric_unpackable]. unfold operator_shr.
  read_leader t. dispatch. cbn [cast_int cint_numeric].
  assert (wrap ty (byte_val t) = byte_val t) as ->; [|apply decodes_ret].
  destruct (it_signed ty) eqn:Hs;
    [apply wrap_signed_small|apply wrap_unsigned_small]; (done || lia).
Qed.

(** The length of an array from its header: a fixarray tag, or array16 and
    array32 with a length of two and four bytes. *)
Lemma decodes_array_length :
  (∀ t, 0x90 ≤ byte_val t ≤ 0x9f →
     decodes next_array_length [t] (Z.to_nat (Z.land (byte_val t) 15)))
  ∧ (∀ b0 b1, decodes next_array_length [xdc; b0; b1]
                (Z.to_nat (be_value [b0; b1])))
  ∧ (∀ b0 b1 b2 b3, decodes next_array_length [xdd; b0; b1; b2; b3]
                      (Z.to_nat (be_value [b0; b1; b2; b3]))).
Proof.
  split; [|split].
  - intros t Ht. unfold next_array_length. read_leader t. dispatch.
    apply decodes_ret.
  - intros. unfold next_array_length. read_leader xdc.
    change (byte_val xdc) with 0xdc. dispatch.
    rewrite <- (ntoh_native_value host 2) by done.
    apply (decodes_bind_ret _ (λ n, Z.to_nat (ntohs host n))).
    by apply decodes_read_raw_unsigned.
  - intros. unfold next_array_length. read_leader xdd.
    change (byte_val xdd) with 0xdd. dispatch.
    rewrite <- (ntoh_native_value host 4) by done.
    apply (decodes_bind_ret _ (λ n, Z.to_nat (ntohl host n))).
    by apply decodes_read_raw_unsigned.
Qed.

Lemma decodes_map_length :
  (∀ t, 0x80 ≤ byte_val t ≤ 0x8f →
     decodes next_map_length [t] (Z.to_nat (Z.land (byte_val t) 15)))
  ∧ (∀ b0 b1, decodes next_map_length [xde; b0; b1]
                (Z.to_nat (be_value [b0; b1])))
  ∧ (∀ b0 b1 b2 b3, decodes next_map_length [xdf; b0; b1; b2; b3]
                      (Z.to_nat (be_value [b0; b1; b2; b3]))).
Proof.
  split; [|split].
  - intros t Ht. unfold next_map_length. read_leader t. dispatch.
    apply decodes_ret.
  - intros. unfold next_map_length. read_leader xde.
    change (byte_val xde) with 0xde. dispatch.
    rewrite <- (ntoh_native_value host 2) by done.
    apply (decodes_bind_ret _ (λ n, Z.to_nat (ntohs host n))).
    by apply decodes_read_raw_unsigned.
  - intros. unfold next_map_length. read_leader xdf.
    change (byte_val xdf) with 0xdf. dispatch.
    rewrite <- (ntoh_native_value host 4) by done.
    apply (decodes_bind_ret _ (λ n, Z.to_nat (ntohl host n))).
    by apply decodes_read_raw_unsigned.
Qed.

(** The string overload on a header [hdr] that gives the length [n] and a
    payload of [n] bytes. *)
Lemma decodes_string_payload (resize : string → M string) hdr payload obj :
  (∀ obj, decodes (resize obj) hdr (string_resize (length payload) obj)) →
  decodes (obj' ← resize obj;
           bs ← read_raw_bytes (String.length obj');
           mret (string_store bs obj'))
    (hdr ++ payload) (String.string_of_list_byte payload).
Proof.
  intros Hr. eapply decodes_bind; [apply Hr|].
  rewrite string_resize_length, <- string_store_resize with (s := obj).
  apply (decodes_bind_ret _ (λ bs, string_store bs _)), decodes_read_raw_bytes.
Qed.

Lemma decodes_fixraw obj tag payload :
  0xa0 ≤ byte_val tag ≤ 0xbf →
  length payload = Z.to_nat (Z.land (byte_val tag) 0x1f) →
  decodes (operator_shr_string obj) (tag :: payload)
    (String.string_of_list_byte payload).
Proof.
  intros Ht Hl. unfold operator_shr_string. read_leader tag. dispatch.
  apply (decodes_string_payload (λ o, mret (string_resize _ o)) [] payload obj).
  intros o. rewrite Hl. apply decodes_ret.
Qed.

Lemma decodes_raw16 obj b0 b1 payload :
  Z.of_nat (length payload) = be_value [b0; b1] →
  decodes (operator_shr_string obj) (xda :: b0 :: b1 :: payload)
    (String.string_of_list_byte payload).
Proof.
  intros Hl. unfold operator_shr_string. read_leader xda.
  change (byte_val xda) with 0xda. dispatch.
  apply (decodes_string_payload
           (λ o, n ← read_raw_unsigned 2;
                 mret (string_resize (Z.to_nat (ntohs host n)) o))
           [b0; b1] payload obj).
  intros o. rewrite <- (Nat2Z.id (length payload)), Hl.
  rewrite <- (ntoh_native_value host 2) by done.
  apply (decodes_bind_ret _ (λ n, string_resize (Z.to_nat (ntohs host n)) o)).
  by apply decodes_read_raw_unsigned.
Qed.

Lemma decodes_raw32 obj b0 b1 b2 b3 payload :
  Z.of_nat (length payload) = be_value [b0; b1; b2; b3] →
  decodes (operator_shr_string obj) (xdb :: b0 :: b1 :: b2 :: b3 :: payload)
    (String.string_of_list_byte payload).
Proof.
  intros Hl. unfold operator_shr_string. read_leader xdb.
  change (byte_val xdb) with 0xdb. dispatch.
  apply (decodes_string_payload
           (λ o, n ← read_raw_unsigned 4;
                 mret (string_resize (Z.to_nat (ntohl host n)) o))
           [b0; b1; b2; b3] payload obj).
  intros o. rewrite <- (Nat2Z.id (length payload)), Hl.
  rewrite <- (ntoh_native_value host 4) by done.
  apply (decodes_bind_ret _ (λ n, string_resize (Z.to_nat (ntohl host n)) o)).
  by apply decodes_read_raw_unsigned.
Qed.

(** C9. The string overload reads the tag, takes the length from it
    ([tag & 0x1F] for the fixraw tags 0xA0 to 0xBF, the two or four bytes
    that follow, most significant first, for raw16 and raw32), and returns
    exactly that many payload bytes as they are, whatever they are and
    whatever the string held before; the bytes A3 'f' 'o' 'o' give "foo",
    three bytes consumed after the tag. *)
Theorem string_decode :
  (∀ obj tag payload,
     0xa0 ≤ byte_val tag ≤ 0xbf →
     length payload = Z.to_nat (Z.land (byte_val tag) 0x1f) →
     decodes (operator_shr_string obj) (tag :: payload)
       (String.string_of_list_byte payload))
  ∧ (∀ obj b0 b1 payload,
       Z.of_nat (length payload) = be_value [b0; b1] →
       decodes (operator_shr_string obj) (xda :: b0 :: b1 :: payload)
         (String.string_of_list_byte payload))
  ∧ (∀ obj b0 b1 b2 b3 payload,
       Z.of_nat (length payload) = be_value [b0; b1; b2; b3] →
       decodes (operator_shr_string obj) (xdb :: b0 :: b1 :: b2 :: b3 :: payload)
         (String.string_of_list_byte payload))
  ∧ decodes (next string) [xa3; x66; x6f; x6f] "foo".
Proof.
  split; [|split; [|split]].
  - apply decodes_fixraw.
  - apply decodes_raw16.
  - apply decodes_raw32.
  - by apply (decodes_fixraw "" xa3 [x66; x6f; x6f]).
Qed.

(** *** Vectors *)

Lemma vector_loop_sequential `{Unpackable T} n : ∀ (acc : list T) fuel u,
  vector_loop n acc fuel u
  = (xs ← sequential_decodes n; mret (acc ++ xs)) fuel u.
Proof.
  induction n as [|n IH]; intros acc fuel u.
  - cbn. unfold mbind, M_bind, mret, M_ret. by rewrite app_nil_r.
  - cbn [vector_loop sequential_decodes]. unfold mbind, M_bind.
    destruct (next T fuel u) as [a u1| |]; [|done..].
    rewrite IH. unfold mbind, M_bind.
    destruct (sequential_decodes n fuel u1) as [xs u2| |]; [|done..].
    unfold mret, M_ret. by rewrite <- app_assoc.
Qed.

Lemma decodes_vector_loop `{Unpackable T} (items : list (list byte * T)) :
  ∀ acc, Forall encoded items →
    decodes (vector_loop (length items) acc) (concat items.*1) (acc ++ items.*2).
Proof.
  induction items as [|[bs a] items IH]; intros acc Hi.
  - cbn. rewrite app_nil_r. apply decodes_ret.
  - apply Forall_cons in Hi as [Ha Hi]. cbn [length vector_loop fmap list_fmap concat fst snd].
    rewrite cons_middle, app_assoc.
    eapply decodes_bind; [apply Ha|]. by apply IH.
Qed.

(** C7. The vector overload is the array-length operation followed by as
    many single-value decodes of the element type as it returned, the
    values in the order of the source and nothing of the old contents of
    the vector before them; on the header of an array of [n] elements and
    the encodings of [n] elements it returns these elements. The bytes
    92 01 02 decoded as an array of integers give [1, 2]. *)
Theorem vector_decode :
  (∀ `{Unpackable T} (obj : list T) fuel u,
     operator_shr_vector obj fuel u
     = (n ← next_array_length; sequential_decodes n) fuel u)
  ∧ (∀ `{Unpackable T} (obj : list T) hdr n (items : list (list byte * T)),
       decodes next_array_length hdr n → length items = n →
       Forall encoded items →
       decodes (operator_shr_vector obj) (hdr ++ concat items.*1) items.*2)
  ∧ (∀ ty, 8 ≤ it_bits ty →
       decodes (next (list (cint ty))) [x92; x01; x02] [CInt 1; CInt 2]).
Proof.
  assert (∀ `{Unpackable T} (obj : list T) hdr n (items : list (list byte * T)),
       decodes next_array_length hdr n → length items = n →
       Forall encoded items →
       decodes (operator_shr_vector obj) (hdr ++ concat items.*1) items.*2) as HB.
  { intros T HT obj hdr n items Hh <- Hi. unfold operator_shr_vector.
    eapply decodes_bind; [apply Hh|]. by apply (decodes_vector_loop items []). }
  split; [|split; [exact HB|]].
  - intros T HT obj fuel u. unfold operator_shr_vector, mbind, M_bind.
    destruct (next_array_length fuel u) as [n u1| |]; [|done..].
    rewrite vector_loop_sequential. unfold mbind, M_bind.
    by destruct (sequential_decodes n fuel u1).
  - intros ty Hb.
    apply (HB _ _ [] [x92] 2%nat [([x01], CInt 1); ([x02], CInt 2)]).
    + by apply decodes_array_length.
    + done.
    + repeat apply Forall_cons_2; [..|apply Forall_nil_2];
        by apply decodes_positive_fixnum.
Qed.

(** On a big-endian host the float payload needs no conversion, and the
    decoder returns the float of the wire. *)
Lemma float_payload_on_big_endian b0 b1 b2 b3 :
  host = BigEndian →
  decodes (next float_t) [xca; b0; b1; b2; b3] (wire_float [b0; b1; b2; b3]).
Proof.
  intros Hh. unfold next. cbn [shr numeric_unpackable]. unfold operator_shr.
  read_leader xca. change (byte_val xca) with 0xca. dispatch.
  unfold wire_float.
  replace (be_value [b0; b1; b2; b3]) with (native_value host [b0; b1; b2; b3])
    by (unfold native_value; by rewrite Hh).
  apply (decodes_bind_ret _ Float). by apply decodes_read_raw_unsigned.
Qed.

End CodecClaims.

(** ** The theorems at concrete inputs *)

Section Witnesses.
#[local] Existing Instance little_endian_host.

Lemma interrupted_calm stream : calm 4%nat (interrupted stream).
Proof.
  split; cbn; [|lia]. repeat constructor.
Defined.

Lemma float_payload_keeps_wire_order_witness :
  decodes (next float_t) [xca; x3f; x80; x00; x00] (Float 0x0000803f)
  ∧ wire_float [x3f; x80; x00; x00] = Float 0x3f800000.
Proof.
  destruct (float_payload_keeps_wire_order (H := little_endian_host) eq_refl)
    as (_ & _ & Hf & Hw).
  exact (conj Hf Hw).
Defined.

Lemma fixnum_decode_witness :
  decodes (next (cint uint32_t)) [x05] (CInt 5)
  ∧ decodes (next (cint int32_t)) [xf0] (CInt (-16)).
Proof.
  split.
  - refine (proj1 (fixnum_decode uint32_t x05 _) eq_refl _);
      vm_compute; (split || idtac); discriminate.
  - refine (proj2 (proj2 (fixnum_decode int32_t xf0 _) eq_refl _));
      vm_compute; (split || idtac); discriminate.
Defined.

Lemma fixnum_fixmap_boundary_witness :
  decodes (next (cint int32_t)) [x7f] (CInt 127)
  ∧ rejects (next (cint int32_t)) [x80]
      "Don't know how to convert MessagePack type 128 to type i"
  ∧ decodes next_map_length [x80] 0%nat.
Proof.
  destruct (fixnum_fixmap_boundary (H := little_endian_host))
    as (_ & H7f & H80 & Hmap).
  split; [|split].
  - apply H7f. vm_compute. discriminate.
  - exact (H80 (cint int32_t) _).
  - exact Hmap.
Defined.

Lemma nil_peek_and_consume_witness :
  ∃ u1 u2,
    next_is_nil 4%nat (interrupted [xc0; x01]) = Ok true u1
    ∧ logical u1 = logical (interrupted [xc0; x01])
    ∧ next_nil 4%nat u1 = Ok () u2 ∧ logical u2 = [x01].
Proof.
  refine (proj1 (nil_peek_and_consume 4%nat (interrupted [xc0; x01]) xc0 [x01]
                   (interrupted_calm _) eq_refl) eq_refl).
Defined.


Lemma read_retries_eintr_and_fails_otherwise_witness :
  (∃ u', read_raw_bytes 3%nat 4%nat (interrupted [x01; x02; x03; x04]) = Ok [x01; x02; x03] u'
         ∧ logical u' = [x04])
  ∧ (∃ u', read_raw_bytes 3%nat 4%nat
             (unpacker_on [x01; x02; x03] [EvFail EINTR; EvData 2; EvFail 5])
           = Throw (UnpackerError "Read from stream failed: errno 5") u').
Proof.
  destruct (read_retries_eintr_and_fails_otherwise (H := little_endian_host))
    as (Hok & _ & Hfail).
  split.
  - destruct (Hok 4%nat (interrupted [x01; x02; x03; x04]) [x01; x02; x03] [x04]
                (interrupted_calm _) eq_refl) as (u' & E & Hl & _).
    exists u'. split; [exact E|exact Hl].
  - refine (Hfail 4%nat
              (unpacker_on [x01; x02; x03] [EvFail EINTR; EvData 2; EvFail 5])
              3%nat [EvFail EINTR; EvData 2] 5 [] eq_refl _ _ _ _).
    + repeat constructor.
    + vm_compute. lia.
    + discriminate.
    + cbn. lia.
Defined.

Lemma vector_decode_witness :
  decodes (next (list (cint int32_t))) [x92; x01; x02] [CInt 1; CInt 2].
Proof.
  refine (proj2 (proj2 (vector_decode (H := little_endian_host))) int32_t _).
  vm_compute. discriminate.
Defined.

Lemma string_decode_witness :
  decodes (operator_shr_string "previous") [xa3; x66; x6f; x6f] "foo"
  ∧ decodes (operator_shr_string "") [xda; x00; x02; x6f; x6b] "ok".
Proof.
  destruct (string_decode (H := little_endian_host)) as (Hfix & H16 & _).
  split.
  - refine (Hfix "previous" xa3 [x66; x6f; x6f] _ eq_refl).
    vm_compute. split; discriminate.
  - exact (H16 "" x00 x02 [x6f; x6b] eq_refl).
Defined.

Lemma read_spins_at_end_of_stream_witness :
  read_raw_bytes 2%nat 1000%nat (unpacker_on [] [EvFail EINTR; EvData 4]) = Diverge.
Proof.
  refine (proj1 (read_spins_at_end_of_stream (H := little_endian_host))
            1000%nat (unpacker_on [] [EvFail EINTR; EvData 4]) 2%nat eq_refl _ _).
  - repeat constructor.
  - vm_compute. lia.
Defined.

End Witnesses.

(** ** More on the byte source *)

Section ByteSourceMore.
Context `{Platform}.

Lemma sys_read_script count f r f' :
  sys_read count f = (r, f') →
  (script f = [] ∧ script f' = [] ∧ ∃ bs, r = RetBytes bs)
  ∨ (∃ e, script f = e :: script f'
          ∧ match r with
            | RetError errno => e = EvFail errno
            | RetBytes _ => ∃ avail, e = EvData avail
            end).
Proof.
  unfold sys_read. destruct (script f) as [|[errno|avail] s]; intros [= <- <-];
    cbn [script]; [left|right..]; eauto.
Qed.

(** A loop that throws took fewer bytes than it was to read, and throws
    the stream failure of an [errno] of the script that is not EINTR. *)
Lemma read_loop_throw fuel : ∀ f buf bytes e f',
  read_loop fuel f buf bytes = LoopThrow e f' →
  ∃ got errno, pending f = got ++ pending f' ∧ (length got < bytes)%nat
    ∧ errno ≠ EINTR ∧ EvFail errno ∈ script f
    ∧ e = UnpackerError (stream_failure errno).
Proof.
  induction fuel as [|fuel IH]; intros f buf bytes e f' E;
    (destruct bytes as [|n]; [done|]); [done|].
  cbn [read_loop] in E.
  destruct (sys_read (S n) f) as [r f1] eqn:Er.
  pose proof (sys_read_script _ _ _ _ Er) as Hs.
  apply sys_read_pending in Er as [_ Er]. destruct r as [errno|bs].
  - destruct Hs as [(_ & _ & bs & ?)|(ev & Hs & ->)]; [done|].
    case_decide as He.
    + apply IH in E as (got & errno' & Hp & Hl & Hne & Hin & ->).
      exists got, errno'. rewrite <- Er, Hs. repeat split; try done.
      by apply list_elem_of_further.
    + injection E as <- <-. exists [], errno. rewrite Er, Hs.
      repeat split; try done; [cbn; lia|apply list_elem_of_here].
  - destruct Er as [Ep Hle].
    apply IH in E as (got & errno' & Hp & Hl & Hne & Hin & ->).
    exists (bs ++ got), errno'. rewrite Ep, Hp, length_app, app_assoc.
    repeat split; try done; [lia|].
    destruct Hs as [(Hs & Hs' & _)|(ev & -> & _)].
    + rewrite Hs' in Hin. by apply elem_of_nil in Hin.
    + by apply list_elem_of_further.
Qed.

(** A loop that ends used a prefix of the script. *)
Lemma read_loop_script fuel : ∀ f buf bytes buf' f',
  read_loop fuel f buf bytes = LoopDone buf' f' →
  ∃ used, script f = used ++ script f'.
Proof.
  induction fuel as [|fuel IH]; intros f buf bytes buf' f' E;
    (destruct bytes as [|n]; [injection E as <- <-; by exists []|]); [done|].
  cbn [read_loop] in E.
  destruct (sys_read (S n) f) as [r f1] eqn:Er.
  apply sys_read_script in Er as Hs.
  assert (∃ used, script f = used ++ script f1) as (used1 & Hu1).
  { destruct Hs as [(-> & -> & _)|(ev & -> & _)]; [by exists []|by exists [ev]]. }
  destruct r as [errno|bs]; [case_decide; [|done]|];
    apply IH in E as (used & Hu); exists (used1 ++ used);
    by rewrite Hu1, Hu, app_assoc.
Qed.

(** A loop that is to read more than the stream has never ends. *)
Lemma read_loop_short fuel : ∀ f buf bytes,
  Forall transient (script f) → (length (pending f) < bytes)%nat →
  read_loop fuel f buf bytes = LoopSpin.
Proof.
  induction fuel as [|fuel IH]; intros f buf bytes Ht Hl;
    (destruct bytes as [|n]; [lia|]); [done|].
  cbn [read_loop].
  destruct (sys_read (S n) f) as [r f1] eqn:Er.
  pose proof (sys_read_script _ _ _ _ Er) as Hs.
  apply sys_read_pending in Er as [_ Er].
  assert (Forall transient (script f1)) as Ht1.
  { destruct Hs as [(_ & -> & _)|(ev & Hs & _)]; [done|].
    rewrite Hs in Ht. by apply Forall_cons in Ht as [_ Ht]. }
  destruct r as [errno|bs].
  - destruct Hs as [(_ & _ & bs & ?)|(ev & Hs & ->)]; [done|].
    rewrite Hs in Ht. apply Forall_cons in Ht as [He _]. cbn in He.
    rewrite decide_True by done. apply IH; [done|]. by rewrite Er.
  - destruct Er as [Ep Hle]. rewrite Ep, length_app in Hl.
    apply IH; [done|lia].
Qed.

Lemma read_raw_bytes_script bytes fuel u bs u' :
  read_raw_bytes bytes fuel u = Ok bs u' →
  ∃ used, script (fd u) = used ++ script (fd u').
Proof.
  unfold read_raw_bytes.
  destruct (have_next_byte u && (0 <? bytes)%nat);
    destruct (read_loop _ _ _ _) as [buf' f'| |] eqn:E; try done;
    intros [= <- <-]; by apply read_loop_script in E.
Qed.

Lemma read_raw_bytes_harmless bytes fuel u bs u' :
  harmless u → read_raw_bytes bytes fuel u = Ok bs u' → harmless u'.
Proof.
  unfold harmless. intros Hh E.
  apply read_raw_bytes_script in E as (used & Hu). rewrite Hu in Hh.
  by apply Forall_app in Hh as [_ Hh].
Qed.

Lemma read_raw_bytes_throw bytes fuel u e u' :
  read_raw_bytes bytes fuel u = Throw e u' →
  ∃ lost errno, logical u = lost ++ logical u' ∧ (length lost < bytes)%nat
    ∧ have_next_byte u' = false
    ∧ errno ≠ EINTR ∧ EvFail errno ∈ script (fd u)
    ∧ e = UnpackerError (stream_failure errno).
Proof.
  unfold read_raw_bytes, logical. destruct u as [f have nb].
  cbn [have_next_byte next_byte fd]. destruct have; cbn [andb].
  - destruct bytes as [|n]; cbn [Nat.ltb Nat.leb].
    + by destruct fuel.
    + destruct (read_loop _ _ _ _) as [|e' f'|] eqn:E; [done| |done].
      intros [= <- <-].
      apply read_loop_throw in E as (got & errno & Hp & Hl & Hne & Hin & ->).
      exists (nb :: got), errno. cbn. rewrite Hp.
      repeat split; try done. lia.
  - destruct (read_loop _ _ _ _) as [|e' f'|] eqn:E; [done| |done].
    intros [= <- <-].
    apply read_loop_throw in E as (got & errno & Hp & Hl & Hne & Hin & ->).
    exists got, errno. cbn. by rewrite Hp.
Qed.

Lemma read_raw_bytes_short bytes fuel u :
  harmless u → (length (logical u) < bytes)%nat →
  read_raw_bytes bytes fuel u = Diverge.
Proof.
  unfold harmless, read_raw_bytes, logical. destruct u as [f have nb].
  cbn [have_next_byte next_byte fd]. intros Ht Hl.
  destruct have; cbn [andb app length] in *.
  - destruct bytes as [|n]; [lia|]. cbn [Nat.ltb Nat.leb].
    rewrite read_loop_short; [done..|lia].
  - by rewrite read_loop_short.
Qed.

Lemma read_raw_bytes_fails bytes fuel u pre errno sc :
  script (fd u) = pre ++ EvFail errno :: sc → Forall transient pre →
  (offered pre < outstanding u bytes)%nat → errno ≠ EINTR →
  (length pre < fuel)%nat →
  fails_with (read_raw_bytes bytes) fuel u errno.
Proof.
  destruct u as [[pend s nr] have nb]. intros Hs Ht Ho He Hf.
  cbn in Hs. subst s. unfold outstanding in Ho. cbn in Ho.
  unfold fails_with, read_raw_bytes. cbn [have_next_byte next_byte fd].
  destruct have; cbn [andb].
  - destruct bytes as [|n]; [lia|]. cbn [Nat.ltb Nat.leb].
    destruct (read_loop_fails pre fuel pend nr [nb] (S n - 1) errno sc)
      as (f' & ->); [done|lia|done..|]. by eexists.
  - destruct (read_loop_fails pre fuel pend nr [] bytes errno sc)
      as (f' & ->); [done|lia|done..|]. by eexists.
Qed.

(** A request for zero bytes returns at once with nothing: it issues no
    [::read], so it neither fails nor waits on any descriptor, and it
    leaves the lookahead byte where it is. *)
Lemma zero_byte_read_is_noop fuel u :
  read_raw_bytes 0 fuel u = Ok [] u.
Proof.
  unfold read_raw_bytes. destruct u as [f have nb].
  cbn [have_next_byte next_byte fd].
  rewrite andb_false_r. by destruct fuel.
Qed.

(** X2. A read throws only the stream failure of an [errno] other than
    EINTR that the descriptor reported; by then it took fewer bytes from
    the stream than it was asked for, these bytes are gone, and the
    lookahead slot is empty. On a descriptor that reports no such failure
    a read never throws. *)
Theorem read_throws_only_stream_failure bytes fuel u e u' :
  read_raw_bytes bytes fuel u = Throw e u' →
  (∃ errno, errno ≠ EINTR ∧ EvFail errno ∈ script (fd u)
            ∧ e = UnpackerError (stream_failure errno))
  ∧ (∃ lost, logical u = lost ++ logical u' ∧ (length lost < bytes)%nat)
  ∧ have_next_byte u' = false
  ∧ ¬ harmless u.
Proof.
  intros E.
  apply read_raw_bytes_throw in E as (lost & errno & Hl & Hlen & Hh & Hne & Hin & ->).
  split; [by exists errno|]. split; [by exists lost|]. split; [done|].
  intros Hh'. unfold harmless in Hh'. rewrite Forall_forall in Hh'.
  by apply Hh' in Hin.
Qed.

(** X3. A read of more bytes than the stream still has, on a descriptor
    that reports no failure, never returns and never throws: there is no
    end-of-input error. *)
Theorem read_beyond_end_of_stream_blocks bytes u :
  harmless u → (length (logical u) < bytes)%nat →
  blocks (read_raw_bytes bytes) u.
Proof. intros Hh Hl fuel. by apply read_raw_bytes_short. Qed.

(** X4. A [peek] that throws has thrown the stream failure and has lost
    nothing: the lookahead slot is still empty and the stream, as the
    caller sees it, is where it was, so the call can be made again. With a
    byte in the slot [peek] never throws. *)
Theorem failed_peek_keeps_stream fuel u e u' :
  peek fuel u = Throw e u' →
  have_next_byte u = false ∧ have_next_byte u' = false
  ∧ logical u' = logical u
  ∧ ∃ errno, errno ≠ EINTR ∧ e = UnpackerError (stream_failure errno).
Proof.
  unfold peek. destruct (have_next_byte u) eqn:Hh; [done|].
  destruct (read_raw_bytes 1 fuel u) as [|e1 u1|] eqn:E; [done| |done].
  intros [= <- <-].
  apply read_raw_bytes_throw in E as (lost & errno & Hl & Hlen & Hh1 & Hne & _ & ->).
  destruct lost; [|cbn in Hlen; lia].
  repeat split; try done. by exists errno.
Qed.

End ByteSourceMore.

(** ** More on the decoders *)

Lemma rejects_bind_throw {A B} (m : M A) (k : A → M B) bs msg :
  rejects m bs msg → rejects (m ≫= k) bs msg.
Proof.
  intros Hm fuel u rest Hc Hl.
  destruct (Hm fuel u rest Hc Hl) as (u' & E & Hl' & Hc').
  exists u'. split; [|done]. unfold mbind, M_bind. by rewrite E.
Qed.

Lemma pow_256 n : 256 ^ Z.of_nat n = 2 ^ (8 * Z.of_nat n).
Proof. rewrite Z.pow_mul_r by lia. done. Qed.

Lemma to_signed_multiple bits x :
  0 ≤ bits → ∃ k, to_signed bits x = x + k * 2 ^ bits.
Proof.
  intros Hb. unfold to_signed.
  assert (0 < 2 ^ bits) by (apply Z.pow_pos_nonneg; lia).
  pose proof (Z.div_mod x (2 ^ bits)) as Hd.
  case_decide.
  - exists (- (x `div` 2 ^ bits)). lia.
  - exists (- (x `div` 2 ^ bits) - 1). lia.
Qed.

Lemma bswap_multiple n : ∀ x k, bswap n (x + k * 256 ^ Z.of_nat n) = bswap n x.
Proof.
  induction n as [|n IH]; intros x k; [done|].
  cbn [bswap]. rewrite Nat2Z.inj_succ, Z.pow_succ_r by lia.
  replace (x + k * (256 * 256 ^ Z.of_nat n))
    with (x + (k * 256 ^ Z.of_nat n) * 256) by lia.
  by rewrite Z_mod_plus_full, Z_div_plus_full, IH by lia.
Qed.

(** [ntohs] and [ntohl] take their argument as unsigned: the sign that
    [read_raw<int16_t>] and [read_raw<int32_t>] gave it is gone. *)
Lemma ntoh_to_signed h n x :
  ntoh h n (to_signed (8 * Z.of_nat n) x) = ntoh h n x.
Proof.
  destruct (to_signed_multiple (8 * Z.of_nat n) x) as [k ->]; [lia|].
  rewrite <- pow_256. destruct h; cbn [ntoh].
  - apply bswap_multiple.
  - apply Z_mod_plus_full.
Qed.

Lemma land_15 t lo : lo `mod` 16 = 0 → lo ≤ t < lo + 16 → Z.land t 15 = t - lo.
Proof.
  intros Hlo Ht. change 15 with (Z.ones 4). rewrite Z.land_ones by lia.
  change (2 ^ 4) with 16. symmetry.
  apply (Z.mod_unique _ _ (lo `div` 16)); [lia|].
  pose proof (Z.div_mod lo 16). lia.
Qed.

Section DecodersMore.
Context `{Platform}.

Lemma rejects_after_leader {A} (k : Z → M A) b msg :
  rejects (k (byte_val b)) [] msg → rejects (read_raw_unsigned 1 ≫= k) [b] msg.
Proof. intros Hk. by apply (rejects_bind _ _ [b] [] (byte_val b)); [apply decodes_leader|]. Qed.

(** The generic [operator >>] on a tag with a payload of [n] bytes that it
    reads unsigned. *)
Lemma decodes_unsigned_payload `{Numeric T} (f : Z → Z) n bs :
  length bs = n →
  decodes (x ← read_raw_unsigned n; mret (cast_int (T := T) (f x))) bs
    (cast_int (f (native_value host bs))).
Proof.
  intros Hl. apply (decodes_bind_ret _ (λ x, cast_int (f x))).
  by apply decodes_read_raw_unsigned.
Qed.

Lemma decodes_signed_payload `{Numeric T} (f : Z → Z) n bs :
  length bs = n →
  decodes (x ← read_raw_signed n; mret (cast_int (T := T) (f x))) bs
    (cast_int (f (to_signed (8 * Z.of_nat n) (native_value host bs)))).
Proof.
  intros Hl. unfold read_raw_signed.
  intros fuel u rest Hc Hlog.
  destruct (decodes_read_raw_unsigned n bs Hl fuel u rest Hc Hlog)
    as (u' & E & Hl' & Hc').
  exists u'. split; [|done]. unfold mbind, M_bind, mret, M_ret.
  by rewrite E.
Qed.

Lemma rejects_non_numeric `{Numeric T} (obj : T) (t : byte) :
  ¬ numeric_tag (byte_val t) →
  rejects (operator_shr obj) [t]
    (decode_failure (byte_val t) ("type " +:+ type_name T)).
Proof.
  unfold numeric_tag. intros Ht. unfold operator_shr.
  apply rejects_after_leader. dispatch. apply rejects_throw.
Qed.

(** X5. The generic [operator >>] rejects every leader byte outside the
    fixnums, the two booleans, the floats and the integers, nil, the
    reserved bytes and the string, array and map headers among them, with
    the decode failure that names the byte and [typeid(T).name()]; the
    byte is consumed and nothing after it. *)
Theorem numeric_decode_rejects_other_tags `{Numeric T} (obj : T) (t : byte) :
  ¬ numeric_tag (byte_val t) →
  rejects (operator_shr obj) [t]
    (decode_failure (byte_val t) ("type " +:+ type_name T))
  ∧ rejects (next T) [t]
      (decode_failure (byte_val t) ("type " +:+ type_name T)).
Proof.
  intros Ht. split; by apply rejects_non_numeric.
Qed.

(** X6. [next_array_length] takes the length of a fixarray from the low
    four bits of the tag, [tag - 0x90], and the length of an array16 and an
    array32 from the two and four bytes after the tag, most significant
    first, on a host of either byte order; it rejects every other leader
    byte with the decode failure that names it, having consumed it. *)
Theorem array_length_by_header :
  (∀ t, 0x90 ≤ byte_val t ≤ 0x9f →
     decodes next_array_length [t] (Z.to_nat (byte_val t - 0x90)))
  ∧ (∀ b0 b1, decodes next_array_length [xdc; b0; b1]
       (Z.to_nat (byte_val b0 * 256 + byte_val b1)))
  ∧ (∀ b0 b1 b2 b3, decodes next_array_length [xdd; b0; b1; b2; b3]
       (Z.to_nat (((byte_val b0 * 256 + byte_val b1) * 256 + byte_val b2) * 256
                  + byte_val b3)))
  ∧ (∀ t, ¬ array_tag (byte_val t) →
       rejects next_array_length [t] (decode_failure (byte_val t) "array")).
Proof.
  destruct decodes_array_length as (Hfix & H16 & H32).
  split; [|split; [|split]].
  - intros t Ht. rewrite <- (land_15 _ 0x90) by (done || lia). by apply Hfix.
  - intros b0 b1. specialize (H16 b0 b1).
    unfold be_value in H16. cbn [foldl] in H16. by rewrite Z.mul_0_l, Z.add_0_l in H16.
  - intros b0 b1 b2 b3. specialize (H32 b0 b1 b2 b3).
    unfold be_value in H32. cbn [foldl] in H32. by rewrite Z.mul_0_l, Z.add_0_l in H32.
  - unfold array_tag. intros t Ht. unfold next_array_length.
    apply rejects_after_leader. dispatch. apply rejects_throw.
Qed.

(** X7. [next_map_length] takes the length of a fixmap from the low four
    bits of the tag, [tag - 0x80], and the length of a map16 and a map32
    from the two and four bytes after the tag, most significant first, on
    a host of either byte order; it rejects every other leader byte with
    the decode failure that names it, having consumed it. *)
Theorem map_length_by_header :
  (∀ t, 0x80 ≤ byte_val t ≤ 0x8f →
     decodes next_map_length [t] (Z.to_nat (byte_val t - 0x80)))
  ∧ (∀ b0 b1, decodes next_map_length [xde; b0; b1]
       (Z.to_nat (byte_val b0 * 256 + byte_val b1)))
  ∧ (∀ b0 b1 b2 b3, decodes next_map_length [xdf; b0; b1; b2; b3]
       (Z.to_nat (((byte_val b0 * 256 + byte_val b1) * 256 + byte_val b2) * 256
                  + byte_val b3)))
  ∧ (∀ t, ¬ map_tag (byte_val t) →
       rejects next_map_length [t] (decode_failure (byte_val t) "map")).
Proof.
  destruct decodes_map_length as (Hfix & H16 & H32).
  split; [|split; [|split]].
  - intros t Ht. rewrite <- (land_15 _ 0x80) by (done || lia). by apply Hfix.
  - intros b0 b1. specialize (H16 b0 b1).
    unfold be_value in H16. cbn [foldl] in H16. by rewrite Z.mul_0_l, Z.add_0_l in H16.
  - intros b0 b1 b2 b3. specialize (H32 b0 b1 b2 b3).
    unfold be_value in H32. cbn [foldl] in H32. by rewrite Z.mul_0_l, Z.add_0_l in H32.
  - unfold map_tag. intros t Ht. unfold next_map_length.
    apply rejects_after_leader. dispatch. apply rejects_throw.
Qed.

(** X8. The string overload rejects every leader byte that is not a
    fixraw, raw16 or raw32 tag with the decode failure that names it,
    having consumed that byte only. *)
Theorem string_decode_rejects_other_tags obj (t : byte) :
  ¬ raw_tag (byte_val t) →
  rejects (operator_shr_string obj) [t] (decode_failure (byte_val t) "string").
Proof.
  unfold raw_tag. intros Ht. unfold operator_shr_string.
  apply rejects_after_leader. dispatch.
  apply rejects_bind_throw, rejects_throw.
Qed.

End DecodersMore.

Section IntegersMore.
Context `{Platform}.

Lemma be_value_8n bs : 0 ≤ be_value bs < 2 ^ (8 * Z.of_nat (length bs)).
Proof. rewrite <- pow_256. apply be_value_range. Qed.

Lemma decodes_uint_any ty tag n bs :
  (tag, n) ∈ uint_tags → length bs = n →
  decodes (next (cint ty)) (tag :: bs) (CInt (wrap ty (be_value bs))).
Proof.
  intros Hin Hl. unfold next. cbn [shr numeric_unpackable]. unfold operator_shr.
  read_leader tag. unfold uint_tags in Hin.
  repeat (apply elem_of_cons in Hin as [[= -> ->]|Hin]); [..|by apply elem_of_nil in Hin].
  - change (byte_val xcc) with 0xcc. dispatch.
    destruct bs as [|b [|]]; [done| |done].
    replace (be_value [b]) with (native_value host [b])
      by (rewrite native_value_byte; unfold be_value; cbn; lia).
    exact (decodes_unsigned_payload (T := cint ty) (λ x, x) 1 [b] Hl).
  - change (byte_val xcd) with 0xcd. dispatch.
    rewrite <- (ntoh_native_value host 2) by done.
    exact (decodes_unsigned_payload (T := cint ty) (ntohs host) 2 bs Hl).
  - change (byte_val xce) with 0xce. dispatch.
    rewrite <- (ntoh_native_value host 4) by done.
    exact (decodes_unsigned_payload (T := cint ty) (ntohl host) 4 bs Hl).
Qed.

Lemma decodes_int_any ty tag n bs :
  (tag, n) ∈ int_tags → length bs = n →
  decodes (next (cint ty)) (tag :: bs)
    (CInt (wrap ty (if decide (n = 1%nat) then to_signed 8 (be_value bs)
                    else be_value bs))).
Proof.
  intros Hin Hl. unfold next. cbn [shr numeric_unpackable]. unfold operator_shr.
  read_leader tag. unfold int_tags in Hin.
  repeat (apply elem_of_cons in Hin as [[= -> ->]|Hin]); [..|by apply elem_of_nil in Hin].
  - change (byte_val xd0) with 0xd0. dispatch.
    destruct bs as [|b [|]]; [done| |done].
    replace (be_value [b]) with (native_value host [b])
      by (rewrite native_value_byte; unfold be_value; cbn; lia).
    exact (decodes_signed_payload (T := cint ty) (λ x, x) 1 [b] Hl).
  - change (byte_val xd1) with 0xd1. dispatch.
    rewrite <- (ntoh_native_value host 2), <- (ntoh_to_signed host 2) by done.
    exact (decodes_signed_payload (T := cint ty) (ntohs host) 2 bs Hl).
  - change (byte_val xd2) with 0xd2. dispatch.
    rewrite <- (ntoh_native_value host 4), <- (ntoh_to_signed host 4) by done.
    exact (decodes_signed_payload (T := cint ty) (ntohl host) 4 bs Hl).
Qed.

Lemma wrap_unsigned_fits ty z :
  it_signed ty = false → 0 ≤ z < 2 ^ it_bits ty → wrap ty z = z.
Proof. intros Hs Hz. unfold wrap. rewrite Hs. by apply Z.mod_small. Qed.

Lemma wrap_signed_fits ty z :
  it_signed ty = true → 0 < it_bits ty →
  - 2 ^ (it_bits ty - 1) ≤ z < 2 ^ (it_bits ty - 1) → wrap ty z = z.
Proof. intros Hs Hb Hz. unfold wrap. rewrite Hs. by apply to_signed_id. Qed.

(** X9. A uint8, uint16 or uint32 value, the tag followed by one, two or
    four bytes, decodes into an unsigned integer type that is wide enough
    as the number its payload spells most significant byte first, on a
    host of either byte order; into any integer type it decodes as that
    number converted to the type, with no range check. *)
Theorem unsigned_integer_decode ty tag n bs :
  (tag, n) ∈ uint_tags → length bs = n →
  decodes (next (cint ty)) (tag :: bs) (CInt (wrap ty (be_value bs)))
  ∧ (it_signed ty = false → 8 * Z.of_nat n ≤ it_bits ty →
     decodes (next (cint ty)) (tag :: bs) (CInt (be_value bs))).
Proof.
  intros Hin Hl. pose proof (decodes_uint_any ty tag n bs Hin Hl) as Hd.
  split; [done|]. intros Hs Hb. rewrite wrap_unsigned_fits in Hd; [done..|].
  pose proof (be_value_8n bs) as Hr. rewrite Hl in Hr.
  split; [lia|]. eapply Z.lt_le_trans; [apply Hr|].
  apply Z.pow_le_mono_r; lia.
Qed.

(** X10. An int8 value decodes into every signed type of eight bits or
    more as the two's-complement reading of its byte. An int16 or int32
    value decodes into the signed type of its own width as the
    two's-complement reading of its payload, most significant byte first;
    into a wider signed type it decodes as the unsigned reading of the
    payload, since [ntohs] and [ntohl] return unsigned values: the sign is
    not extended. *)
Theorem signed_integer_decode ty :
  it_signed ty = true →
  (∀ b, 8 ≤ it_bits ty →
     decodes (next (cint ty)) [xd0; b] (CInt (to_signed 8 (byte_val b))))
  ∧ (∀ tag n bs, (tag, n) ∈ int_tags → n ≠ 1%nat → length bs = n →
       it_bits ty = 8 * Z.of_nat n →
       decodes (next (cint ty)) (tag :: bs)
         (CInt (to_signed (8 * Z.of_nat n) (be_value bs))))
  ∧ (∀ tag n bs, (tag, n) ∈ int_tags → n ≠ 1%nat → length bs = n →
       8 * Z.of_nat n < it_bits ty →
       decodes (next (cint ty)) (tag :: bs) (CInt (be_value bs))).
Proof.
  intros Hs. split; [|split].
  - intros b Hb.
    pose proof (decodes_int_any ty xd0 1 [b]) as Hd.
    rewrite decide_True in Hd by done.
    replace (be_value [b]) with (byte_val b) in Hd by (unfold be_value; cbn; lia).
    rewrite wrap_signed_fits in Hd; [apply Hd| | |].
    + unfold int_tags. apply list_elem_of_here.
    + done.
    + done.
    + lia.
    + pose proof (byte_val_range b). pose proof (pow2_ge_256 _ Hb).
      unfold to_signed. change (2 ^ 8) with 256. change (2 ^ (8 - 1)) with 128.
      rewrite Z.mod_small by lia. case_decide; lia.
  - intros tag n bs Hin Hn Hl Hb.
    pose proof (decodes_int_any ty tag n bs Hin Hl) as Hd.
    rewrite decide_False in Hd by done.
    unfold wrap in Hd. by rewrite Hs, Hb in Hd.
  - intros tag n bs Hin Hn Hl Hb.
    pose proof (decodes_int_any ty tag n bs Hin Hl) as Hd.
    rewrite decide_False in Hd by done.
    rewrite wrap_signed_fits in Hd; [done|done|lia|].
    pose proof (be_value_8n bs) as Hr. rewrite Hl in Hr.
    assert (0 < 2 ^ (it_bits ty - 1)) by (apply Z.pow_pos_nonneg; lia).
    split; [lia|]. eapply Z.lt_le_trans; [apply Hr|].
    apply Z.pow_le_mono_r; lia.
Qed.

(** X11. The tags of false and true are numbers to the generic
    [operator >>]: they decode to 0 and 1 in every integer type of eight
    bits or more, and to false and true when the target is [bool]; a
    positive fixnum decodes into [bool] as true exactly when it is not 0. *)
Theorem boolean_tags_decode :
  (∀ ty, 8 ≤ it_bits ty →
     decodes (next (cint ty)) [xc2] (CInt 0)
     ∧ decodes (next (cint ty)) [xc3] (CInt 1))
  ∧ decodes (next bool) [xc2] false
  ∧ decodes (next bool) [xc3] true
  ∧ (∀ t, byte_val t ≤ 0x7f →
       decodes (next bool) [t] (bool_decide (byte_val t ≠ 0))).
Proof.
  split; [|split; [|split]].
  - intros ty Hb.
    assert (∀ z, 0 ≤ z < 2 → wrap ty z = z) as Hw.
    { intros z Hz. destruct (it_signed ty) eqn:Hs;
        [apply wrap_signed_small|apply wrap_unsigned_small]; (done || lia). }
    split; unfold next; cbn [shr numeric_unpackable]; unfold operator_shr.
    + read_leader xc2. change (byte_val xc2) with 0xc2. dispatch.
      cbn [cast_int cint_numeric]. rewrite Hw by lia. apply decodes_ret.
    + read_leader xc3. change (byte_val xc3) with 0xc3. dispatch.
      cbn [cast_int cint_numeric]. rewrite Hw by lia. apply decodes_ret.
  - unfold next. cbn [shr numeric_unpackable]. unfold operator_shr.
    read_leader xc2. change (byte_val xc2) with 0xc2. dispatch. apply decodes_ret.
  - unfold next. cbn [shr numeric_unpackable]. unfold operator_shr.
    read_leader xc3. change (byte_val xc3) with 0xc3. dispatch. apply decodes_ret.
  - intros t Ht. pose proof (byte_val_range t).
    unfold next. cbn [shr numeric_unpackable]. unfold operator_shr.
    read_leader t. dispatch. apply decodes_ret.
Qed.

End IntegersMore.

Section FailuresMore.
Context `{Platform}.

Lemma fails_with_bind {A B} (m : M A) (k : A → M B) fuel u errno :
  fails_with m fuel u errno → fails_with (m ≫= k) fuel u errno.
Proof.
  intros (u' & E). exists u'. unfold mbind, M_bind. by rewrite E.
Qed.

Lemma blocks_bind {A B} (m : M A) (k : A → M B) u :
  blocks m u → blocks (m ≫= k) u.
Proof. intros Hm fuel. unfold mbind, M_bind. by rewrite Hm. Qed.

(** The read of the leader byte on a descriptor that reports no failure:
    it is still reading when the fuel is spent, or it returns the first
    byte of the stream. *)
Lemma read_leader_cases fuel u b rest :
  harmless u → logical u = b :: rest →
  read_raw_unsigned 1 fuel u = Diverge
  ∨ ∃ u1, read_raw_unsigned 1 fuel u = Ok (byte_val b) u1
          ∧ logical u1 = rest ∧ harmless u1.
Proof.
  intros Hh Hl. unfold read_raw_unsigned, mbind, M_bind.
  destruct (read_raw_bytes 1 fuel u) as [bs u1|e u1|] eqn:E.
  - right. exists u1.
    pose proof (read_raw_bytes_harmless _ _ _ _ _ Hh E) as Hh1.
    apply read_raw_bytes_ok in E as (Hlen & Hs & _).
    destruct bs as [|b0 [|]]; [done| |done].
    rewrite Hl in Hs. injection Hs as <- <-.
    unfold mret, M_ret. by rewrite native_value_byte.
  - apply read_raw_bytes_throw in E as (_ & errno & _ & _ & _ & Hne & Hin & _).
    unfold harmless in Hh. rewrite Forall_forall in Hh. by apply Hh in Hin.
  - by left.
Qed.

Lemma blocks_after_leader {A} (k : Z → M A) u b rest :
  harmless u → logical u = b :: rest →
  (∀ u1, harmless u1 → logical u1 = rest → blocks (k (byte_val b)) u1) →
  blocks (read_raw_unsigned 1 ≫= k) u.
Proof.
  intros Hh Hl Hk fuel. unfold mbind, M_bind.
  destruct (read_leader_cases fuel u b rest Hh Hl) as [->|(u1 & -> & Hl1 & Hh1)];
    [done|]. by apply Hk.
Qed.

(** X12. When the descriptor fails with an [errno] other than EINTR before
    it delivered the leader byte, every operation throws the stream
    failure that carries [strerror(errno)], whatever it was to decode:
    [peek], [next_is_nil], [next_nil], the two length operations and the
    numeric, string and vector overloads of [operator >>]. *)
Theorem stream_failure_reaches_the_caller fuel u pre errno sc :
  have_next_byte u = false →
  script (fd u) = pre ++ EvFail errno :: sc → Forall transient pre →
  offered pre = 0%nat → errno ≠ EINTR → (length pre < fuel)%nat →
  fails_with peek fuel u errno
  ∧ fails_with next_is_nil fuel u errno
  ∧ fails_with next_nil fuel u errno
  ∧ fails_with next_array_length fuel u errno
  ∧ fails_with next_map_length fuel u errno
  ∧ (∀ `{Numeric T} (obj : T), fails_with (operator_shr obj) fuel u errno)
  ∧ (∀ obj, fails_with (operator_shr_string obj) fuel u errno)
  ∧ (∀ `{Unpackable T} (obj : list T),
       fails_with (operator_shr_vector obj) fuel u errno).
Proof.
  intros Hh Hs Ht Ho He Hf.
  assert (fails_with (read_raw_bytes 1) fuel u errno) as Hr.
  { apply (read_raw_bytes_fails 1 fuel u pre errno sc); try done.
    unfold outstanding. rewrite Hh, Ho. lia. }
  assert (fails_with (read_raw_unsigned 1) fuel u errno) as Hl
    by by apply fails_with_bind.
  assert (fails_with peek fuel u errno) as Hp.
  { destruct Hr as (u' & E). exists u'. unfold peek. by rewrite Hh, E. }
  split; [done|]. split; [by apply fails_with_bind|].
  split; [by apply fails_with_bind|]. split; [by apply fails_with_bind|].
  split; [by apply fails_with_bind|]. split; [intros; by apply fails_with_bind|].
  split; [intros; by apply fails_with_bind|].
  intros; by apply fails_with_bind, fails_with_bind.
Qed.

(** X13. At the end of the stream, on a descriptor that reports no
    failure, no operation returns and none throws: there is no
    end-of-input error, the caller waits in [peek], [next_is_nil],
    [next_nil], the two length operations and the numeric, string and
    vector overloads of [operator >>]. *)
Theorem end_of_stream_blocks_every_operation u :
  harmless u → logical u = [] →
  blocks peek u
  ∧ blocks next_is_nil u
  ∧ blocks next_nil u
  ∧ blocks next_array_length u
  ∧ blocks next_map_length u
  ∧ (∀ `{Numeric T} (obj : T), blocks (operator_shr obj) u)
  ∧ (∀ obj, blocks (operator_shr_string obj) u)
  ∧ (∀ `{Unpackable T} (obj : list T), blocks (operator_shr_vector obj) u).
Proof.
  intros Hh Hl.
  assert (blocks (read_raw_bytes 1) u) as Hr.
  { intros fuel. apply read_raw_bytes_short; [done|]. rewrite Hl. cbn. lia. }
  assert (blocks (read_raw_unsigned 1) u) as Hu by by apply blocks_bind.
  assert (blocks peek u) as Hp.
  { intros fuel. unfold peek. unfold logical in Hl.
    destruct (have_next_byte u); [done|]. by rewrite Hr. }
  split; [done|]. split; [by apply blocks_bind|].
  split; [by apply blocks_bind|]. split; [by apply blocks_bind|].
  split; [by apply blocks_bind|]. split; [intros; by apply blocks_bind|].
  split; [intros; by apply blocks_bind|].
  intros; by apply blocks_bind, blocks_bind.
Qed.

(** X14. A value whose payload the stream ends in the middle of is no
    decode failure: on a fixed-size number (float, double and the
    integers of one to eight bytes) and on a fixraw string with fewer
    payload bytes left than the tag announces, the overloads of
    [operator >>] never return and never throw. *)
Theorem truncated_payload_blocks u (tag : byte) payload :
  harmless u → logical u = tag :: payload →
  (∀ `{Numeric T} (obj : T) n,
     (tag, n) ∈ sized_tags → (length payload < n)%nat →
     blocks (operator_shr obj) u)
  ∧ (∀ obj, 0xa0 ≤ byte_val tag ≤ 0xbf →
       (length payload < Z.to_nat (Z.land (byte_val tag) 0x1f))%nat →
       blocks (operator_shr_string obj) u).
Proof.
  intros Hh Hl. split.
  - intros T HT obj n Hin Hn. unfold operator_shr.
    apply (blocks_after_leader _ u tag payload Hh Hl). intros u1 Hh1 Hl1.
    unfold sized_tags in Hin.
    repeat (apply elem_of_cons in Hin as [[= -> ->]|Hin]);
      [..|by apply elem_of_nil in Hin];
      match goal with
      | |- context [byte_val ?b] =>
          let v := eval vm_compute in (byte_val b) in
          change (byte_val b) with v
      end;
      dispatch; try unfold read_raw_signed;
      repeat apply blocks_bind;
      intros fuel; apply read_raw_bytes_short; (done || by rewrite Hl1).
  - intros obj Ht Hn. unfold operator_shr_string.
    apply (blocks_after_leader _ u tag payload Hh Hl). intros u1 Hh1 Hl1.
    dispatch. intros fuel. unfold mbind, M_bind, mret, M_ret.
    rewrite string_resize_length, read_raw_bytes_short; [done..|].
    by rewrite Hl1.
Qed.

End FailuresMore.

Section ContainersMore.
Context `{Platform}.

Lemma rejects_vector_loop `{Unpackable T} (items : list (list byte * T)) :
  ∀ n acc bad msg,
    Forall encoded items → (length items < n)%nat →
    rejects (next T) bad msg →
    rejects (vector_loop n acc) (concat items.*1 ++ bad) msg.
Proof.
  induction items as [|[bs a] items IH]; intros n acc bad msg Hi Hn Hbad;
    (destruct n as [|n]; [cbn in Hn; lia|]); cbn [vector_loop].
  - by apply rejects_bind_throw.
  - apply Forall_cons in Hi as [Ha Hi].
    cbn [fmap list_fmap concat fst]. rewrite <- app_assoc.
    eapply rejects_bind; [apply Ha|].
    apply IH; [done|cbn in Hn; lia|done].
Qed.

Lemma vector_loop_length `{Unpackable T} n : ∀ (acc : list T) fuel u xs u',
  vector_loop n acc fuel u = Ok xs u' → length xs = (length acc + n)%nat.
Proof.
  induction n as [|n IH]; intros acc fuel u xs u'.
  - intros [= <- <-]. lia.
  - cbn [vector_loop]. unfold mbind, M_bind.
    destruct (next T fuel u) as [a u1| |]; [|done..].
    intros E. apply IH in E. rewrite length_app in E. cbn in E. lia.
Qed.

(** X15. The vector overload gives all the elements or none: when the
    header announces more elements than decode, the first element that
    fails to decode ends the call with its decode failure, after the
    header, the elements before it and the bytes the failed decode took
    were consumed. *)
Theorem vector_decode_fails_with_its_element `{Unpackable T}
    (obj : list T) hdr n (items : list (list byte * T)) bad msg :
  decodes next_array_length hdr n → Forall encoded items →
  (length items < n)%nat → rejects (next T) bad msg →
  rejects (operator_shr_vector obj) (hdr ++ concat items.*1 ++ bad) msg.
Proof.
  intros Hh Hi Hn Hbad. unfold operator_shr_vector.
  eapply rejects_bind; [apply Hh|]. by apply rejects_vector_loop.
Qed.

(** X16. Whenever the vector overload returns, on any descriptor, the
    vector has exactly as many elements as [next_array_length] read from
    the header, whatever the vector held before. *)
Theorem vector_decode_length `{Unpackable T} (obj : list T) fuel u xs u' :
  operator_shr_vector obj fuel u = Ok xs u' →
  ∃ n u1, next_array_length fuel u = Ok n u1 ∧ length xs = n.
Proof.
  unfold operator_shr_vector, mbind, M_bind.
  destruct (next_array_length fuel u) as [n u1| |]; [|done..].
  intros E. apply vector_loop_length in E. by exists n, u1.
Qed.

(** X18. Asking whether the next value is nil does not disturb the decode
    that follows: [next_is_nil] answers by the first byte, true exactly
    for 0xC0, and any decode after it returns what it returns without the
    question and consumes the same bytes. *)
Theorem nil_check_then_decode {A} (m : M A) (b : byte) bs (a : A) :
  decodes m (b :: bs) a →
  decodes (isnil ← next_is_nil; x ← m; mret (isnil, x)) (b :: bs)
    (bool_decide (byte_val b = 0xc0), a).
Proof.
  intros Hm fuel u rest Hc Hl.
  destruct (peek_calm fuel u b (bs ++ rest) Hc Hl) as (u1 & E1 & Hl1 & Hc1).
  destruct (Hm fuel u1 rest Hc1 Hl1) as (u2 & E2 & Hl2 & Hc2).
  exists u2. split; [|done].
  unfold next_is_nil, mbind, M_bind, mret, M_ret. by rewrite E1, E2.
Qed.

(** X1. Once [next_is_nil] has returned, the value it looked at is in the
    lookahead slot, and [next_nil] decides on it without a [::read]: it
    returns after a true answer and throws the decode failure after a
    false one, whatever the descriptor does by then, and leaves the
    descriptor as it was. *)
Theorem nil_check_settles_next_nil fuel u isnil u1 :
  next_is_nil fuel u = Ok isnil u1 →
  ∀ fuel', ∃ u2,
    fd u2 = fd u1 ∧ have_next_byte u2 = false
    ∧ next_nil fuel' u1
      = if isnil then Ok () u2
        else Throw (UnpackerError (not_nil_message (next_byte u1))) u2.
Proof.
  unfold next_is_nil, mbind, M_bind.
  destruct (peek fuel u) as [b u1'| |] eqn:E; [|done..].
  intros [= ? ?]; subst. apply peek_ok in E as (Hh & Hb & _).
  intros fuel'. exists (MkUnpacker (fd u1) false (next_byte u1)).
  split; [done|]. split; [done|].
  unfold next_nil, read_raw_unsigned, read_raw_bytes, mbind, M_bind, mret, M_ret.
  rewrite Hh. cbn [andb Nat.ltb Nat.leb Nat.sub].
  assert (read_loop fuel' (fd u1) [next_byte u1] 0 = LoopDone [next_byte u1] (fd u1))
    as -> by by destruct fuel'.
  rewrite native_value_byte, Hb. unfold MSGPACK_NIL.
  destruct (bool_decide_reflect (byte_val b = 192)).
  - by rewrite decide_False by (intros ?; done).
  - by rewrite decide_True.
Qed.

End ContainersMore.

Section FixnumsMore.
Context `{Platform}.

(** X19. A negative fixnum decoded into an unsigned integer type is not
    rejected: the value [tag - 256] wraps around to [2^bits + tag - 256],
    the largest values of the type. *)
Theorem negative_fixnum_into_unsigned ty (t : byte) :
  it_signed ty = false → 8 ≤ it_bits ty → 0xe0 ≤ byte_val t →
  decodes (next (cint ty)) [t] (CInt (2 ^ it_bits ty + byte_val t - 256)).
Proof.
  intros Hs Hb Ht. pose proof (byte_val_range t).
  unfold next. cbn [shr numeric_unpackable]. unfold operator_shr.
  read_leader t. dispatch. cbn [cast_int cint_numeric].
  rewrite to_signed_8_high by lia.
  assert (wrap ty (byte_val t - 256) = 2 ^ it_bits ty + byte_val t - 256) as ->;
    [|apply decodes_ret].
  unfold wrap. rewrite Hs. pose proof (pow2_ge_256 _ Hb).
  symmetry. apply (Z.mod_unique _ _ (-1)); lia.
Qed.

End FixnumsMore.

(** ** The further theorems at concrete inputs *)

Section MoreWitnesses.
#[local] Existing Instance little_endian_host.

Lemma nil_check_settles_next_nil_witness :
  ∃ u2, fd u2 = FdState [] [EvFail 5] 2
        ∧ have_next_byte u2 = false
        ∧ next_nil 0%nat (MkUnpacker (FdState [] [EvFail 5] 2) true xc0) = Ok () u2.
Proof.
  exact (nil_check_settles_next_nil 0%nat
           (MkUnpacker (FdState [] [EvFail 5] 2) true xc0) true
           (MkUnpacker (FdState [] [EvFail 5] 2) true xc0) eq_refl 0%nat).
Defined.

Lemma read_throws_only_stream_failure_witness :
  ∃ lost,
    logical (unpacker_on [x01; x02; x03] [EvFail EINTR; EvData 2; EvFail 5])
    = lost ++ logical (MkUnpacker (FdState [x03] [] 3) false x00)
    ∧ (length lost < 3)%nat.
Proof.
  exact (proj1 (proj2 (read_throws_only_stream_failure 3%nat 4%nat
           (unpacker_on [x01; x02; x03] [EvFail EINTR; EvData 2; EvFail 5])
           (UnpackerError "Read from stream failed: errno 5")
           (MkUnpacker (FdState [x03] [] 3) false x00) eq_refl))).
Defined.

Lemma read_beyond_end_of_stream_blocks_witness :
  blocks (read_raw_bytes 3) (unpacker_on [x01; x02] [EvFail EINTR]).
Proof.
  apply read_beyond_end_of_stream_blocks.
  - repeat constructor.
  - cbn. lia.
Defined.

Lemma failed_peek_keeps_stream_witness :
  logical (MkUnpacker (FdState [x01] [] 1) false x00)
  = logical (unpacker_on [x01] [EvFail 5]).
Proof.
  exact (proj1 (proj2 (proj2 (failed_peek_keeps_stream 4%nat
           (unpacker_on [x01] [EvFail 5])
           (UnpackerError "Read from stream failed: errno 5")
           (MkUnpacker (FdState [x01] [] 1) false x00) eq_refl)))).
Defined.

Lemma numeric_decode_rejects_other_tags_witness :
  rejects (next (cint int32_t)) [xc1]
    "Don't know how to convert MessagePack type 193 to type i".
Proof.
  refine (proj2 (numeric_decode_rejects_other_tags
                   (T := cint int32_t) (CInt 0) xc1 _)).
  unfold numeric_tag. change (byte_val xc1) with 193. lia.
Defined.

Lemma array_length_by_header_witness :
  decodes next_array_length [x95] 5%nat
  ∧ decodes next_array_length [xdc; x01; x00] 256%nat
  ∧ rejects next_array_length [x80]
      "Don't know how to convert MessagePack type 128 to array".
Proof.
  destruct (array_length_by_header (H := little_endian_host))
    as (Hfix & H16 & _ & Hrej).
  split; [|split].
  - refine (Hfix x95 _). vm_compute. split; discriminate.
  - exact (H16 x01 x00).
  - refine (Hrej x80 _). unfold array_tag. change (byte_val x80) with 128. lia.
Defined.

Lemma map_length_by_header_witness :
  decodes next_map_length [x83] 3%nat
  ∧ decodes next_map_length [xde; x01; x00] 256%nat
  ∧ rejects next_map_length [x90]
      "Don't know how to convert MessagePack type 144 to map".
Proof.
  destruct (map_length_by_header (H := little_endian_host))
    as (Hfix & H16 & _ & Hrej).
  split; [|split].
  - refine (Hfix x83 _). vm_compute. split; discriminate.
  - exact (H16 x01 x00).
  - refine (Hrej x90 _). unfold map_tag. change (byte_val x90) with 144. lia.
Defined.

Lemma string_decode_rejects_other_tags_witness :
  rejects (operator_shr_string "") [x01]
    "Don't know how to convert MessagePack type 1 to string".
Proof.
  refine (string_decode_rejects_other_tags "" x01 _).
  unfold raw_tag. change (byte_val x01) with 1. lia.
Defined.

Lemma unsigned_integer_decode_witness :
  decodes (next (cint uint32_t)) [xcd; x01; x02] (CInt 258)
  ∧ decodes (next (cint uint8_t)) [xcd; x01; x02] (CInt 2).
Proof.
  split.
  - refine (proj2 (unsigned_integer_decode uint32_t xcd 2 [x01; x02] _ eq_refl)
              eq_refl _).
    + apply list_elem_of_further, list_elem_of_here.
    + vm_compute. discriminate.
  - refine (proj1 (unsigned_integer_decode uint8_t xcd 2 [x01; x02] _ eq_refl)).
    apply list_elem_of_further, list_elem_of_here.
Defined.

Lemma signed_integer_decode_witness :
  decodes (next (cint int32_t)) [xd0; xfe] (CInt (-2))
  ∧ decodes (next (cint int16_t)) [xd1; xff; xfe] (CInt (-2))
  ∧ decodes (next (cint int32_t)) [xd1; xff; xfe] (CInt 65534).
Proof.
  split; [|split].
  - refine (proj1 (signed_integer_decode int32_t eq_refl) xfe _).
    vm_compute. discriminate.
  - refine (proj1 (proj2 (signed_integer_decode int16_t eq_refl))
              xd1 2%nat [xff; xfe] _ _ eq_refl eq_refl).
    + apply list_elem_of_further, list_elem_of_here.
    + discriminate.
  - refine (proj2 (proj2 (signed_integer_decode int32_t eq_refl))
              xd1 2%nat [xff; xfe] _ _ eq_refl _).
    + apply list_elem_of_further, list_elem_of_here.
    + discriminate.
    + vm_compute. reflexivity.
Defined.

Lemma boolean_tags_decode_witness :
  decodes (next (cint int32_t)) [xc3] (CInt 1) ∧ decodes (next bool) [x00] false.
Proof.
  destruct (boolean_tags_decode (H := little_endian_host)) as (Hint & _ & _ & Hfix).
  split.
  - refine (proj2 (Hint int32_t _)). vm_compute. discriminate.
  - refine (Hfix x00 _). vm_compute. discriminate.
Defined.

Lemma stream_failure_reaches_the_caller_witness :
  fails_with next_nil 3 (unpacker_on [xc0] [EvFail EINTR; EvFail 5]) 5
  ∧ fails_with (operator_shr_string "") 3
      (unpacker_on [xc0] [EvFail EINTR; EvFail 5]) 5.
Proof.
  destruct (stream_failure_reaches_the_caller 3%nat
              (unpacker_on [xc0] [EvFail EINTR; EvFail 5])
              [EvFail EINTR] 5 [] eq_refl eq_refl)
    as (_ & _ & Hnil & _ & _ & _ & Hstr & _).
  - repeat constructor.
  - reflexivity.
  - discriminate.
  - cbn. lia.
  - exact (conj Hnil (Hstr "")).
Defined.

Lemma end_of_stream_blocks_every_operation_witness :
  blocks next_nil (unpacker_on [] [EvFail EINTR])
  ∧ blocks (operator_shr (T := cint int32_t) (CInt 0))
      (unpacker_on [] [EvFail EINTR]).
Proof.
  destruct (end_of_stream_blocks_every_operation
              (unpacker_on [] [EvFail EINTR]))
    as (_ & _ & Hnil & _ & _ & Hnum & _).
  - repeat constructor.
  - reflexivity.
  - exact (conj Hnil (Hnum (cint int32_t) _ (CInt 0))).
Defined.

Lemma truncated_payload_blocks_witness :
  blocks (operator_shr (T := cint uint32_t) (CInt 0)) (unpacker_on [xce; x01] [])
  ∧ blocks (operator_shr_string "") (unpacker_on [xa3; x66] []).
Proof.
  split.
  - refine (proj1 (truncated_payload_blocks (unpacker_on [xce; x01] []) xce [x01]
                     _ eq_refl) (cint uint32_t) _ (CInt 0) 4%nat _ _).
    + constructor.
    + do 4 apply list_elem_of_further. apply list_elem_of_here.
    + cbn. lia.
  - refine (proj2 (truncated_payload_blocks (unpacker_on [xa3; x66] []) xa3 [x66]
                     _ eq_refl) "" _ _).
    + constructor.
    + vm_compute. split; discriminate.
    + vm_compute. lia.
Defined.

Lemma vector_decode_fails_with_its_element_witness :
  rejects (operator_shr_vector (T := cint int32_t) []) [x92; x01; xc0]
    "Don't know how to convert MessagePack type 192 to type i".
Proof.
  refine (vector_decode_fails_with_its_element (T := cint int32_t) []
            [x92] 2%nat [([x01], CInt 1)] [xc0] _ _ _ _ _).
  - refine (proj1 decodes_array_length x92 _). vm_compute. split; discriminate.
  - apply Forall_cons_2; [|apply Forall_nil_2].
    refine (decodes_positive_fixnum int32_t x01 _ _); vm_compute; discriminate.
  - cbn. lia.
  - refine (rejects_non_numeric (T := cint int32_t) (CInt 0) xc0 _).
    unfold numeric_tag. change (byte_val xc0) with 192. lia.
Defined.

Lemma vector_decode_length_witness :
  ∃ n u1,
    next_array_length 1%nat (unpacker_on [x92; x01; x02] []) = Ok n u1
    ∧ length [CInt (t := int32_t) 1; CInt 2] = n.
Proof.
  exact (vector_decode_length (T := cint int32_t) [] 1%nat
           (unpacker_on [x92; x01; x02] []) [CInt 1; CInt 2]
           (MkUnpacker (FdState [] [] 3) false x00) eq_refl).
Defined.

Lemma nil_check_then_decode_witness :
  decodes (isnil ← next_is_nil; x ← next (cint int32_t); mret (isnil, x))
    [x05] (false, CInt 5).
Proof.
  refine (nil_check_then_decode (next (cint int32_t)) x05 [] (CInt 5) _).
  refine (decodes_positive_fixnum int32_t x05 _ _); vm_compute; discriminate.
Defined.

Lemma negative_fixnum_into_unsigned_witness :
  decodes (next (cint uint8_t)) [xff] (CInt 255).
Proof.
  refine (negative_fixnum_into_unsigned uint8_t xff eq_refl _ _);
    vm_compute; discriminate.
Defined.

End MoreWitnesses.
